(** * hardspheres_2d: the Python wrapper around the collision engine

    The package's [__init__.py] holds two functions:
    - [generate_velocities], the Maxwell-Boltzmann sampler of initial
      velocities, written against numpy and [math];
    - [update_spheres], which forwards one simulation step to the compiled
      collision engine [hardspheres_2d._core].

    The first part of this development embeds [generate_velocities] together
    with the few numpy operations it calls, over binary64 floats, a store of
    arrays and numpy's process-wide random generator.  The second part models
    the collision engine, whose code is not part of the Python sources, from
    its specification. *)

From Stdlib Require Import ZArith List Bool Lia Floats String QArith Lqa.
From stdpp Require Import gmap list.

(** ** Python values, exceptions and the interpreter state *)

Module Py.

(** The exceptions the sampler can end with, each with its message. *)
Inductive exn : Type :=
| NotImplementedError (msg : string)
| ValueError (msg : string)
| IndexError (msg : string)
| TypeError (msg : string).

(** How a call ends: with a value, or with a raised exception. *)
Inductive outcome (A : Type) : Type :=
| Returns (a : A)
| Raises (e : exn).
Arguments Returns {A} a.
Arguments Raises {A} e.

(** An [np.ndarray] of float64: its shape and its elements in C order. *)
Record ndarray : Type := mk_ndarray { shape : list nat; data : list float }.

(** A one-dimensional array holding [xs]. *)
Definition array1 (xs : list float) : ndarray :=
  {| shape := [length xs]; data := xs |}.

(** Arrays are objects: a variable holds a reference into the store. *)
Definition loc : Type := positive.

(** [np.random]'s process-wide legacy generator.  The sampler only ever asks
    it for standard-normal variates (legacy_gauss), so its state is
    abstracted to the sequence of variates it will hand out and the number of
    those already consumed. *)
Record RandomState : Type := mk_RandomState {
  gauss_stream : nat -> float;
  consumed : nat
}.

(** The interpreter state a call can read and change. *)
Record world : Type := mk_world {
  heap : gmap loc ndarray;
  np_random : RandomState
}.

(** Computations: state passing with exceptions; a raised exception keeps
    the state reached so far. *)
Definition M (A : Type) : Type := world -> outcome A * world.

Definition ret {A} (a : A) : M A := fun w => (Returns a, w).
Definition raise {A} (e : exn) : M A := fun w => (Raises e, w).
Definition bind {A B} (c : M A) (k : A -> M B) : M B :=
  fun w => match c w with
           | (Returns a, w') => k a w'
           | (Raises e, w') => (Raises e, w')
           end.

Notation "x <- c ;; k" := (bind c (fun x => k))
  (at level 100, c at next level, right associativity).
Notation "c ;;; k" := (bind c (fun _ => k))
  (at level 100, right associativity).

(** *** The store *)

(** Dereference an array variable.  A reference outside the store denotes no
    array; Python rejects such an argument with a TypeError. *)
Definition load (p : loc) : M ndarray :=
  fun w => match heap w !! p with
           | Some a => (Returns a, w)
           | None => (Raises (TypeError "not an ndarray"), w)
           end.

(** A new array object, at a reference no live object has. *)
Definition alloc (a : ndarray) : M loc :=
  fun w => let p := fresh (dom (heap w)) in
           (Returns p, {| heap := <[p := a]> (heap w); np_random := np_random w |}).

(** Overwrite the elements of the array at [p] in place. *)
Definition store_data (p : loc) (xs : list float) : M unit :=
  fun w => match heap w !! p with
           | Some a =>
               (Returns tt,
                {| heap := <[p := {| shape := shape a; data := xs |}]> (heap w);
                   np_random := np_random w |})
           | None => (Raises (TypeError "not an ndarray"), w)
           end.

(** [len(a)]: the first dimension. *)
Definition py_len (p : loc) : M nat :=
  a <- load p ;;
  match shape a with
  | n :: _ => ret n
  | [] => raise (TypeError "len() of unsized object")
  end.

(** [a.shape[0]]. *)
Definition shape0 (p : loc) : M nat :=
  a <- load p ;;
  match shape a with
  | n :: _ => ret n
  | [] => raise (IndexError "tuple index out of range")
  end.

(** What [a[0]] gives: a float64 scalar when [a] is one-dimensional, and
    otherwise the first sub-array along axis 0 (a view: no new data). *)
Inductive item : Type :=
| Scalar (x : float)
| SubArray (a : ndarray).

(** [a[0]]. *)
Definition getitem0 (p : loc) : M item :=
  a <- load p ;;
  match shape a with
  | [] =>
      raise (IndexError
               "too many indices for array: array is 0-dimensional, but 1 were indexed")
  | [_] =>
      match data a with
      | x :: _ => ret (Scalar x)
      | [] => raise (IndexError "index 0 is out of bounds for axis 0 with size 0")
      end
  | n :: rest =>
      if Nat.eqb n 0
      then raise (IndexError "index 0 is out of bounds for axis 0 with size 0")
      else ret (SubArray {| shape := rest;
                            data := take (foldr Nat.mul 1%nat rest) (data a) |})
  end.

End Py.

(** ** The numpy and math operations the sampler calls *)

Module Np.
Import Py.
Local Open Scope float_scope.

(** numpy's order on floats when sorting: [a < b], with every NaN after
    every number. *)
Definition npy_lt (a b : float) : bool :=
  (a <? b) || (negb (is_nan a) && is_nan b).

Fixpoint insert_sorted (x : float) (l : list float) : list float :=
  match l with
  | [] => [x]
  | y :: l' => if npy_lt x y then x :: l else y :: insert_sorted x l'
  end.

(** [ndarray.sort()] on a one-dimensional array: ascending, NaNs last. *)
Definition sort (l : list float) : list float :=
  fold_right insert_sorted [] l.

(** Two elements that [np.unique] counts as one value: equal under [==]
    (so [0.0] and [-0.0] are one value), or both NaN. *)
Definition same_value (a b : float) : bool :=
  (a =? b) || (is_nan a && is_nan b).

(** The mask of [np.unique] over the sorted array: an element is kept when
    it differs from the element just before it. *)
Fixpoint drop_repeats (prev : float) (l : list float) : list float :=
  match l with
  | [] => []
  | x :: l' =>
      if same_value prev x then drop_repeats x l' else x :: drop_repeats x l'
  end.

Definition unique_sorted (aux : list float) : list float :=
  match aux with
  | [] => []
  | x :: l => x :: drop_repeats x l
  end.

(** [np.unique(ar)]: a flattened copy of [ar] is sorted in place, and the
    elements the mask keeps are returned as a new array.  The argument is
    only read. *)
Definition unique (ar : loc) : M loc :=
  a <- load ar ;;
  aux <- alloc (array1 (data a)) ;;
  store_data aux (sort (data a)) ;;;
  s <- load aux ;;
  alloc (array1 (unique_sorted (data s))).

(** [x / v] for a Python float [x]: the float64 quotient, taken element by
    element when [v] is an array. *)
Definition rtruediv (x : float) (v : item) : item :=
  match v with
  | Scalar y => Scalar (x / y)
  | SubArray a => SubArray {| shape := shape a; data := (fun y => x / y) <$> data a |}
  end.

(** The conversion of the argument of [math.sqrt] to a C double: a scalar
    as it is, an array only when it holds exactly one element. *)
Definition as_double (v : item) : M float :=
  match v with
  | Scalar x => ret x
  | SubArray a =>
      match data a with
      | [x] => ret x
      | _ => raise (TypeError "only length-1 arrays can be converted to Python scalars")
      end
  end.

(** [math.sqrt] on a double: a ValueError where the square root is
    undefined. *)
Definition math_sqrt (x : float) : M float :=
  let r := sqrt x in
  if is_nan r && negb (is_nan x)
  then raise (ValueError "math domain error")
  else ret r.

(** The sign test numpy applies to [scale]: the sign bit of a value that is
    not NaN. *)
Definition signbit_set (x : float) : bool :=
  match classify x with
  | NNormal | NSubn | NZero | NInf => true
  | _ => false
  end.

(** One standard-normal variate from the process-wide generator. *)
Definition legacy_gauss : M float :=
  fun w =>
    let rs := np_random w in
    (Returns (gauss_stream rs (consumed rs)),
     {| heap := heap w;
        np_random := {| gauss_stream := gauss_stream rs;
                        consumed := S (consumed rs) |} |}).

(** [count] successive draws of [loc + scale * gauss]. *)
Fixpoint fill_normal (loc scale : float) (count : nat) : M (list float) :=
  match count with
  | O => ret []
  | S count' =>
      z <- legacy_gauss ;;
      rest <- fill_normal loc scale count' ;;
      ret ((loc + scale * z) :: rest)
  end.

(** The largest value of numpy's index type [npy_intp], a signed 64-bit
    integer. *)
Definition npy_max_intp : Z := 2 ^ 63 - 1.

(** A Python int that converts to [npy_intp]. *)
Definition fits_intp (d : Z) : bool :=
  ((- 2 ^ 63 <=? d) && (d <=? npy_max_intp))%Z.

Definition too_big_msg : string :=
  "array is too big; `arr.size * arr.dtype.itemsize` is larger than the maximum possible size.".

(** The pass over the dimensions of a new array: a zero dimension is
    skipped, a negative one is refused, and the size in bytes, starting from
    the size of one element, must stay within [npy_intp]. *)
Fixpoint check_dims (nbytes : Z) (dims : list Z) : option string :=
  match dims with
  | [] => None
  | d :: rest =>
      if (d =? 0)%Z then check_dims nbytes rest
      else if (d <? 0)%Z then Some "negative dimensions are not allowed"%string
      else if (npy_max_intp <? nbytes * d)%Z then Some too_big_msg
      else check_dims (nbytes * d) rest
  end.

(** [np.empty(dims, np.double)]: converts the dimensions, checks them, and
    allocates.  The contents of the new array are unspecified; they are
    written as zeros here.  Running out of memory is outside the model. *)
Definition empty (dims : list Z) : M Py.loc :=
  if negb (forallb fits_intp dims)
  then raise (ValueError "Maximum allowed dimension exceeded")
  else
    match check_dims 8 dims with
    | Some msg => raise (ValueError msg)
    | None =>
        alloc {| shape := Z.to_nat <$> dims;
                 data := replicate (foldr Nat.mul 1%nat (Z.to_nat <$> dims)) 0 |}
    end.

(** [np.random.normal(loc, scale, size=(n, dim))]: validates [scale],
    allocates the array of that shape, then fills it from the process-wide
    generator. *)
Definition random_normal (loc scale : float) (n : nat) (dim : Z) : M Py.loc :=
  if signbit_set scale then raise (ValueError "scale < 0")
  else
    randoms <- empty [Z.of_nat n; dim] ;;
    xs <- fill_normal loc scale (n * Z.to_nat dim) ;;
    store_data randoms xs ;;;
    ret randoms.

End Np.

(** ** The sampler *)

Import Py.
Local Open Scope float_scope.

Definition different_masses_msg : string :=
  "Not yet implemented a sampling of velocities for spheres with different masses.".

(** [generate_velocities(m, dim, T, kb=1.0)].  [m] is the caller's array of
    masses; [kb] is [None] when the caller omits it.  The assignment
    [m = m[0]] rebinds the local name to the first item, written [m0] here;
    [math.sqrt (kb * T / m)] first converts the quotient to a double. *)
Definition generate_velocities
    (m : loc) (dim : Z) (T : float) (kb : option float) : M loc :=
  let kb := default 1 kb in
  n <- py_len m ;;
  u <- Np.unique m ;;
  k <- shape0 u ;;
  m0 <- (if Nat.eqb k 1 then getitem0 m
         else raise (NotImplementedError different_masses_msg)) ;;
  x <- Np.as_double (Np.rtruediv (kb * T) m0) ;;
  std_dev <- Np.math_sqrt x ;;
  velocities <- Np.random_normal 0 std_dev n dim ;;
  ret velocities.

(** *** Concrete states used in the examples *)

(** A generator whose variates are 1, 2, 3, ... scaled by [step]. *)
Fixpoint ramp (step : float) (k : nat) : float :=
  match k with
  | O => step
  | S k' => step + ramp step k'
  end.

Definition rs_ramp (step : float) : RandomState :=
  {| gauss_stream := ramp step; consumed := 0 |}.

(** The same upcoming variates under another position of the generator. *)
Definition rs_ramp_shifted (step : float) : RandomState :=
  {| gauss_stream := fun k => ramp step (k - 3); consumed := 3 |}.

(** A world holding one masses array, at reference 1. *)
Definition world_with (ms : list float) (rs : RandomState) : world :=
  {| heap := {[ 1%positive := array1 ms ]}; np_random := rs |}.

(** Another store: the masses array at reference 5, beside another array. *)
Definition world_elsewhere (ms : list float) (rs : RandomState) : world :=
  {| heap := {[ 1%positive := array1 [9]; 5%positive := array1 ms ]};
     np_random := rs |}.

(** How a call ended, as its caller sees it: the array behind the returned
    reference, or the exception. *)
Definition result_of (r : outcome loc * world) : outcome (option ndarray) :=
  match fst r with
  | Returns v => Returns (heap (snd r) !! v)
  | Raises e => Raises e
  end.

(** The sample a call has drawn, if it returned. *)
Definition sampled (r : outcome loc * world) : option (list float) :=
  match fst r with
  | Returns v => data <$> (heap (snd r) !! v)
  | Raises _ => None
  end.

(** [update_spheres(s)] hands the state to the compiled engine and returns
    what the engine returns.  The engine is a parameter here; its model
    follows below. *)
Definition update_spheres {State Result : Type}
    (update_spheres_from_bin : State -> Result) (s : State) : Result :=
  update_spheres_from_bin s.

(** ** The collision engine *)

Module Engine.
Local Open Scope Q_scope.

(** A point or a velocity of the plane. *)
Definition vec : Type := (Q * Q)%type.

Definition vsub (a b : vec) : vec := (fst a - fst b, snd a - snd b).
Definition vadd (a b : vec) : vec := (fst a + fst b, snd a + snd b).
Definition vscale (c : Q) (a : vec) : vec := (c * fst a, c * snd a).
Definition dot (a b : vec) : Q := fst a * fst b + snd a * snd b.

(** Modelled from the spec: a Particle of the engine in
    [hardspheres_2d._core], one row of the parallel arrays of a state. *)
Record Particle : Type := mk_Particle {
  position : vec;
  velocity : vec;
  radius : Q;
  mass : Q
}.

Inductive BoundaryPolicy : Type := Reflective | Periodic.

(** Modelled from the spec: ParticleState, the data entity of the engine in
    [hardspheres_2d._core]: parallel sequences of positions, velocities,
    radii and masses, the domain bounds and the boundary policy. *)
Record ParticleState : Type := mk_ParticleState {
  positions : list vec;
  velocities : list vec;
  radii : list Q;
  masses : list Q;
  width : Q;
  height : Q;
  boundary : BoundaryPolicy
}.

Definition particle (s : ParticleState) (i : nat) : option Particle :=
  match positions s !! i, velocities s !! i, radii s !! i, masses s !! i with
  | Some p, Some v, Some r, Some m =>
      Some {| position := p; velocity := v; radius := r; mass := m |}
  | _, _, _, _ => None
  end.

(** Modelled from the spec: the runtime failures of a step of the engine in
    [hardspheres_2d._core], with the offending indices. *)
Inductive engine_error : Type :=
| DegenerateContact (i j : nat)
| StalledResolution.

Inductive result (A : Type) : Type :=
| Ok (a : A)
| Err (e : engine_error).
Arguments Ok {A} a.
Arguments Err {A} e.

(** [position_i == position_j]. *)
Definition coincident (a b : Particle) : bool :=
  Qeq_bool (fst (position a)) (fst (position b)) &&
  Qeq_bool (snd (position a)) (snd (position b)).

(** Modelled from the spec: the velocity formula of the resolver in
    [hardspheres_2d._core].  The velocity of [a] after an elastic collision
    with [b] is
    [v_a - (2 m_b / (m_a + m_b)) (dot (v_a - v_b) (x_a - x_b) / |x_a - x_b|^2) (x_a - x_b)]. *)
Definition bounce (a b : Particle) : vec :=
  let d := vsub (position a) (position b) in
  vsub (velocity a)
       (vscale ((2 * mass b / (mass a + mass b)) *
                (dot (vsub (velocity a) (velocity b)) d / dot d d))
               d).

(** Modelled from the spec: CollisionResolver.resolve of the engine in
    [hardspheres_2d._core]: the post-collision velocities of a colliding
    pair, or the DegenerateContact condition when the centers coincide. *)
Definition resolve (i j : nat) (a b : Particle) : result (vec * vec) :=
  if coincident a b then Err (DegenerateContact i j)
  else Ok (bounce a b, bounce b a).

Definition momentum (m : Q) (v : vec) : vec := vscale m v.
Definition kinetic_energy (m : Q) (v : vec) : Q := (1 # 2) * m * dot v v.

Section Stepper.

(** The square root behind the distance of two centers. *)
Variable sqrtQ : Q -> Q.
(** CollisionDetector.find over a freshly built SpatialBinIndex: the pairs in
    contact, in the order in which they are to be resolved. *)
Variable find : ParticleState -> list (nat * nat).
(** Free flight of every particle for the rest of the step, under the
    boundary policy of the state. *)
Variable free_flight : ParticleState -> ParticleState.
(** The cap on the resolutions of one step. *)
Variable max_iterations : nat.

(** Modelled from the spec: the positional correction of the resolver in
    [hardspheres_2d._core]: an overlapping pair is moved apart along the line
    of centers, each particle in proportion to the other's mass, until the
    distance is the sum of the radii. *)
Definition separate (a b : Particle) : vec * vec :=
  let d := vsub (position b) (position a) in
  let reach := radius a + radius b in
  if Qlt_le_dec (dot d d) (reach * reach) then
    let dist := sqrtQ (dot d d) in
    let n := vscale (/ dist) d in
    let overlap := reach - dist in
    (vsub (position a) (vscale (overlap * (mass b / (mass a + mass b))) n),
     vadd (position b) (vscale (overlap * (mass a / (mass a + mass b))) n))
  else (position a, position b).

(** Modelled from the spec: one resolution inside the stepper of
    [hardspheres_2d._core].  The state after the contact of particles [i] and
    [j] is resolved; indices outside the state name no pair and leave it as
    it is. *)
Definition resolve_contact (s : ParticleState) (i j : nat) : result ParticleState :=
  match particle s i, particle s j with
  | Some a, Some b =>
      match resolve i j a b with
      | Err e => Err e
      | Ok (va, vb) =>
          let '(pa, pb) := separate a b in
          Ok {| positions := <[j := pb]> (<[i := pa]> (positions s));
                velocities := <[j := vb]> (<[i := va]> (velocities s));
                radii := radii s;
                masses := masses s;
                width := width s;
                height := height s;
                boundary := boundary s |}
      end
  | _, _ => Ok s
  end.

(** Modelled from the spec: the resolution loop of SimulationStepper.step in
    [hardspheres_2d._core]: detect, resolve the first pair, emit the state,
    detect again; with no contact left, fly freely and emit the final
    state.  [fuel] bounds the resolutions; running out of it is the
    StalledResolution condition.  A failure discards what was emitted. *)
Fixpoint resolve_loop (fuel : nat) (s : ParticleState) : result (list ParticleState) :=
  match find s with
  | [] => Ok [free_flight s]
  | (i, j) :: _ =>
      match fuel with
      | O => Err StalledResolution
      | S fuel' =>
          match resolve_contact s i j with
          | Err e => Err e
          | Ok s' =>
              match resolve_loop fuel' s' with
              | Err e => Err e
              | Ok states => Ok (s' :: states)
              end
          end
      end
  end.

(** Modelled from the spec: [advance], the entry point of the engine in
    [hardspheres_2d._core] that [update_spheres] forwards to. *)
Definition advance (s : ParticleState) : result (list ParticleState) :=
  resolve_loop max_iterations s.

(** [resolved k s s']: [k] successive resolutions, each of the first pair the
    detector reports, lead from [s] to [s']. *)
Inductive resolved : nat -> ParticleState -> ParticleState -> Prop :=
| resolved_O (s : ParticleState) : resolved 0 s s
| resolved_S (k : nat) (s s1 s' : ParticleState) (i j : nat) (rest : list (nat * nat)) :
    find s = (i, j) :: rest ->
    resolve_contact s i j = Ok s1 ->
    resolved k s1 s' ->
    resolved (S k) s s'.

End Stepper.

(** *** Instances of the stepper's parameters, for the examples

    The specification leaves the length of the free flight, the boundary
    handling and the cap open, and says of the detector only which pairs
    count as in contact.  The choices below serve the examples; the theorems
    about the stepper hold for every choice. *)

(** Square root of a rational, exact on squares of rationals. *)
Definition sqrtQ_floor (q : Q) : Q :=
  Z.sqrt (Qnum q * Zpos (Qden q)) # Qden q.

Definition in_contact (a b : Particle) : bool :=
  let d := vsub (position a) (position b) in
  let reach := radius a + radius b in
  Qle_bool (dot d d) (reach * reach).

Definition closing (a b : Particle) : bool :=
  negb (Qle_bool 0 (dot (vsub (velocity a) (velocity b))
                        (vsub (position a) (position b)))).

(** A detector by exhaustive search over the pairs [i < j], in ascending
    order, for a given test of a pair. *)
Definition find_pairs (test : Particle -> Particle -> bool)
    (s : ParticleState) : list (nat * nat) :=
  let n := length (positions s) in
  List.filter (fun ij : nat * nat =>
                 match particle s ij.1, particle s ij.2 with
                 | Some a, Some b => (ij.1 <? ij.2)%nat && test a b
                 | _, _ => false
                 end)
              (list_prod (seq 0 n) (seq 0 n)).

(** Every pair in contact. *)
Definition find_contacts : ParticleState -> list (nat * nat) :=
  find_pairs in_contact.

(** The pairs in contact that are still moving towards each other. *)
Definition find_closing : ParticleState -> list (nat * nat) :=
  find_pairs (fun a b => in_contact a b && closing a b).

(** Free flight for the time [dt] in a domain without walls. *)
Definition drift (dt : Q) (s : ParticleState) : ParticleState :=
  {| positions := zip_with (fun p v => vadd p (vscale dt v)) (positions s) (velocities s);
     velocities := velocities s;
     radii := radii s;
     masses := masses s;
     width := width s;
     height := height s;
     boundary := boundary s |}.

Definition two_discs (p1 p2 v1 v2 : vec) (m1 m2 : Q) : ParticleState :=
  {| positions := [p1; p2];
     velocities := [v1; v2];
     radii := [1 # 2; 1 # 2];
     masses := [m1; m2];
     width := 100;
     height := 100;
     boundary := Periodic |}.

(** An instance: the detector with the closed contact test alone, a free
    flight of length 1 without walls, at most 8 resolutions. *)
Definition contact_engine : ParticleState -> result (list ParticleState) :=
  advance sqrtQ_floor find_contacts (drift 1) 8.

(** An instance: as before, with a detector that passes over pairs already
    moving apart. *)
Definition closing_engine : ParticleState -> result (list ParticleState) :=
  advance sqrtQ_floor find_closing (drift 1) 8.

(** Unit masses, touching, head on at unit speed. *)
Definition head_on : ParticleState :=
  two_discs (0, 0) (1, 0) (1, 0) (-1, 0) 1 1.

(** Two discs on the same center. *)
Definition coincident_discs : ParticleState :=
  two_discs (0, 0) (0, 0) (1, 0) (-1, 0) 1 3.

End Engine.

(** ** Properties of computations *)

Module Props.
Import Py.

(** [c] leaves every array that exists when it starts as it is. *)
Definition keeps_heap {A : Type} (c : M A) : Prop :=
  forall w, heap w ⊆ heap (snd (c w)).

(** The variates the next [count] draws will return. *)
Definition next_draws (rs : RandomState) (count : nat) : list float :=
  (fun i => gauss_stream rs (consumed rs + i)) <$> seq 0 count.

(** The generator after [count] draws. *)
Definition advanced (rs : RandomState) (count : nat) : RandomState :=
  {| gauss_stream := gauss_stream rs; consumed := consumed rs + count |}.

(** [c] never draws from the generator. *)
Definition keeps_generator {A : Type} (c : M A) : Prop :=
  forall w, np_random (snd (c w)) = np_random w.

(** When [c] raises, it has drawn nothing. *)
Definition failure_keeps_generator {A : Type} (c : M A) : Prop :=
  forall w e, fst (c w) = Raises e -> np_random (snd (c w)) = np_random w.

End Props.

(** ** Binary64 values by sign and by value class *)

Module FloatFacts.

(** The sign of a float; NaN carries none. *)
Definition sf_sign (x : spec_float) : option bool :=
  match x with
  | S754_nan => None
  | S754_zero s | S754_infinity s | S754_finite s _ _ => Some s
  end.

(** The value an element counts as under [Np.same_value]: the two zeros are
    one value. *)
Definition sf_class (x : spec_float) : spec_float :=
  match x with
  | S754_zero _ => S754_zero false
  | _ => x
  end.

(** NaN, or a value whose sign bit is clear. *)
Definition sf_nn (x : spec_float) : Prop :=
  sf_sign x = None \/ sf_sign x = Some false.

(** A number (not NaN) whose sign bit is clear. *)
Definition sf_nonneg (x : spec_float) : Prop := sf_sign x = Some false.

(** A number above zero. *)
Definition sf_pos (x : spec_float) : Prop :=
  match x with
  | S754_finite false _ _ | S754_infinity false => True
  | _ => False
  end.

Lemma compare_cont_Eq_eq (p q : positive) :
  Pos.compare_cont Eq p q = Eq -> p = q.
Proof. apply Pos.compare_eq. Qed.

Lemma SFeqb_class (x y : spec_float) :
  SFeqb x y = true <-> (x <> S754_nan /\ sf_class x = sf_class y).
Proof.
  assert (Hno : forall P : Prop, (P -> False) -> false = true <-> P)
    by (intros P HP; split; [discriminate | intros H; destruct (HP H)]).
  assert (Hyes : forall P : Prop, P -> true = true <-> P)
    by (intros P HP; split; [intros _; exact HP | reflexivity]).
  unfold SFeqb.
  destruct x as [s1| s1| |s1 m1 e1], y as [s2| s2| |s2 m2 e2]; simpl;
    try (apply Hno; intros [? ?]; congruence);
    try (apply Hyes; split; congruence);
    try (destruct s1; simpl; apply Hno; intros [? ?]; congruence);
    try (destruct s2; simpl; apply Hno; intros [? ?]; congruence).
  - destruct s1, s2; simpl;
      try (apply Hno; intros [? ?]; congruence);
      apply Hyes; split; congruence.
  - destruct s1, s2; simpl;
      try (apply Hno; intros [? ?]; congruence);
      destruct (Z.compare_spec e1 e2) as [He|He|He];
      try (apply Hno; intros [_ [=]]; lia);
      subst e2; destruct (Pos.compare_cont Eq m1 m2) eqn:Hm; simpl;
      try (apply Hno; intros [_ [=]]; subst;
           rewrite Pos.compare_cont_refl in Hm; discriminate);
      apply compare_cont_Eq_eq in Hm; subst; apply Hyes; split; congruence.
Qed.

Lemma is_nan_spec (x : float) : is_nan x = true <-> Prim2SF x = S754_nan.
Proof.
  unfold is_nan. rewrite negb_true_iff, FloatAxioms.eqb_spec.
  destruct (SFeqb (Prim2SF x) (Prim2SF x)) eqn:E.
  - apply SFeqb_class in E. destruct E as [E _]. split; [discriminate | contradiction].
  - split; [intros _ | reflexivity].
    destruct (Prim2SF x) eqn:Hx; try reflexivity;
      exfalso; assert (SFeqb (Prim2SF x) (Prim2SF x) = true) as E'
        by (apply SFeqb_class; rewrite Hx; split; [discriminate | reflexivity]);
      rewrite Hx in E'; congruence.
Qed.

Lemma same_value_class (a b : float) :
  Np.same_value a b = true <-> sf_class (Prim2SF a) = sf_class (Prim2SF b).
Proof.
  unfold Np.same_value. rewrite orb_true_iff, andb_true_iff, FloatAxioms.eqb_spec.
  rewrite SFeqb_class, !is_nan_spec. split.
  - intros [[_ H]|[Ha Hb]]; [exact H | rewrite Ha, Hb; reflexivity].
  - intros H. destruct (Prim2SF a) eqn:Ha; try (left; split; [discriminate | exact H]).
    right. split; [reflexivity|]. simpl in H. destruct (Prim2SF b); simpl in H; congruence.
Qed.


(** *** Signs through the arithmetic of the standard deviation *)

Lemma shr_1_nonneg (mrs : shr_record) :
  (0 <= shr_m mrs)%Z -> (0 <= shr_m (shr_1 mrs))%Z.
Proof.
  destruct mrs as [m r s]. simpl.
  destruct m as [|[p|p|]|[p|p|]]; simpl; lia.
Qed.

Lemma iter_shr_1_nonneg (p : positive) (mrs : shr_record) :
  (0 <= shr_m mrs)%Z -> (0 <= shr_m (SpecFloat.iter_pos shr_1 p mrs))%Z.
Proof.
  revert mrs. induction p as [p IH|p IH|]; intros mrs H; simpl.
  - apply IH, IH, shr_1_nonneg, H.
  - apply IH, IH, H.
  - apply shr_1_nonneg, H.
Qed.

Lemma shr_fexp_nonneg (m e : Z) (l : location) :
  (0 <= m)%Z -> (0 <= shr_m (fst (shr_fexp prec emax m e l)))%Z.
Proof.
  intros H. unfold shr_fexp, shr.
  assert (H0 : (0 <= shr_m (shr_record_of_loc m l))%Z)
    by (destruct l as [|[]]; exact H).
  destruct (fexp prec emax (Zdigits2 m + e) - e)%Z; simpl; auto.
  apply iter_shr_1_nonneg, H0.
Qed.

Lemma round_nearest_even_nonneg (m : Z) (l : location) :
  (0 <= m)%Z -> (0 <= round_nearest_even m l)%Z.
Proof.
  intros H. destruct l as [|[]]; simpl; try lia.
  destruct (Z.even m); lia.
Qed.

(** Rounding keeps the sign it is given, unless it yields NaN. *)
Lemma binary_round_aux_sign (s : bool) (m e : Z) (l : location) :
  sf_sign (binary_round_aux prec emax s m e l) = None \/
  sf_sign (binary_round_aux prec emax s m e l) = Some s.
Proof.
  unfold binary_round_aux.
  destruct (shr_fexp prec emax m e l) as [mrs' e'].
  destruct (shr_fexp prec emax _ e' loc_Exact) as [mrs'' e''].
  destruct (shr_m mrs''); [right; reflexivity | | left; reflexivity].
  destruct (Z.leb e'' (emax - prec)); right; reflexivity.
Qed.

(** Rounding a non-negative mantissa never yields NaN. *)
Lemma binary_round_aux_nonneg (s : bool) (m e : Z) (l : location) :
  (0 <= m)%Z -> sf_sign (binary_round_aux prec emax s m e l) = Some s.
Proof.
  intros H. unfold binary_round_aux.
  pose proof (shr_fexp_nonneg m e l H) as H1.
  destruct (shr_fexp prec emax m e l) as [mrs' e']. simpl in H1.
  pose proof (shr_fexp_nonneg _ e' loc_Exact
                (round_nearest_even_nonneg _ (loc_of_shr_record mrs') H1)) as H2.
  destruct (shr_fexp prec emax _ e' loc_Exact) as [mrs'' e'']. simpl in H2.
  destruct (shr_m mrs''); [reflexivity | | lia].
  destruct (Z.leb e'' (emax - prec)); reflexivity.
Qed.

Lemma SFmul_nn (x y : spec_float) :
  sf_nonneg x -> sf_nonneg y -> sf_nn (SF64mul x y).
Proof.
  unfold sf_nonneg, sf_nn, SF64mul.
  destruct x as [s1|s1| |s1 m1 e1], y as [s2|s2| |s2 m2 e2]; simpl;
    intros [= ->] [= ->]; simpl; auto.
  apply (binary_round_aux_sign false).
Qed.

Lemma SFdiv_nn (x y : spec_float) :
  sf_nn x -> sf_pos y -> sf_nn (SF64div x y).
Proof.
  unfold sf_nn, SF64div.
  destruct x as [s1|s1| |s1 m1 e1], y as [s2|s2| |[] m2 e2]; simpl;
    intros [H|H] Hy; try discriminate H; try contradiction; auto;
    try (destruct s2; try contradiction); injection H as ->; simpl; auto.
  destruct (SFdiv_core_binary prec emax (Z.pos m1) e1 (Z.pos m2) e2) as [[mz ez] lz].
  apply (binary_round_aux_sign false).
Qed.

Lemma SFsqrt_nn (x : spec_float) :
  sf_nn x ->
  sf_nn (SF64sqrt x) /\ (SF64sqrt x = S754_nan -> x = S754_nan).
Proof.
  unfold sf_nn, SF64sqrt.
  destruct x as [s|s| |s m e]; simpl; intros [H|H]; try discriminate H;
    try injection H as ->; simpl; auto; try (split; [auto | discriminate]).
  unfold SFsqrt_core_binary.
  set (m' := match _ with Zpos _ => _ | Z0 => _ | Zneg _ => _ end).
  assert (Hm' : (0 <= m')%Z).
  { subst m'. destruct (_ - _)%Z; try lia. apply Z.shiftl_nonneg. lia. }
  pose proof (Z.sqrtrem_spec m' Hm') as Hs.
  destruct (Z.sqrtrem m') as [q r].
  assert (Hq : (0 <= q)%Z) by lia.
  match goal with
  | |- context [binary_round_aux prec emax false q ?e ?l] =>
      pose proof (binary_round_aux_nonneg false q e l Hq) as Hr;
      destruct (binary_round_aux prec emax false q e l)
  end; simpl in Hr; try discriminate Hr; (split; [auto | discriminate]).
Qed.

Lemma Prim2SF_zero : Prim2SF 0%float = S754_zero false.
Proof. reflexivity. Qed.

Lemma leb_0_signbit (x : float) :
  (0 <=? x)%float = true -> Np.signbit_set x = false -> sf_nonneg (Prim2SF x).
Proof.
  unfold Np.signbit_set, sf_nonneg.
  rewrite leb_spec, classify_spec, Prim2SF_zero.
  unfold SF64classify, SFclassify, SFleb.
  destruct (Prim2SF x) as [[]|[]| |[] m e]; simpl; try discriminate; auto.
Qed.

Lemma ltb_0_pos (x : float) :
  (0 <? x)%float = true -> sf_pos (Prim2SF x).
Proof.
  rewrite ltb_spec, Prim2SF_zero. unfold SFltb, sf_pos.
  destruct (Prim2SF x) as [[]|[]| |[] m e]; simpl; try discriminate; auto.
Qed.

Lemma ltb_0_neg (x : float) :
  (x <? 0)%float = true -> sf_sign (Prim2SF x) = Some true /\
                           forall s, Prim2SF x <> S754_zero s.
Proof.
  rewrite ltb_spec, Prim2SF_zero. unfold SFltb.
  destruct (Prim2SF x) as [[]|[]| |[] m e]; simpl; try discriminate; auto.
Qed.

Lemma nn_signbit (x : float) : sf_nn (Prim2SF x) -> Np.signbit_set x = false.
Proof.
  unfold Np.signbit_set, sf_nn. rewrite classify_spec.
  unfold SF64classify, SFclassify.
  destruct (Prim2SF x) as [[]|[]| |[] m e]; simpl; intros [H|H];
    try discriminate H; auto;
    match goal with |- context [if ?b then _ else _] => destruct b end;
    reflexivity.
Qed.

(** The quotient under the square root, for inputs of the expected sign. *)
Lemma variance_nn (kb T m0 : float) :
  (0 <=? kb)%float = true -> Np.signbit_set kb = false ->
  (0 <=? T)%float = true -> Np.signbit_set T = false ->
  (0 <? m0)%float = true ->
  sf_nn (Prim2SF (kb * T / m0)%float).
Proof.
  intros Hkb Hkb' HT HT' Hm.
  rewrite div_spec, mul_spec.
  apply SFdiv_nn; [apply SFmul_nn|]; auto using leb_0_signbit, ltb_0_pos.
Qed.

(** [math.sqrt] returns on NaN and on values with a clear sign bit, and what
    it returns passes numpy's sign test. *)
Lemma math_sqrt_nn (x : float) (w : world) :
  sf_nn (Prim2SF x) ->
  Np.math_sqrt x w = (Returns (sqrt x), w) /\ Np.signbit_set (sqrt x) = false.
Proof.
  intros Hx. destruct (SFsqrt_nn _ Hx) as [Hr Hnan].
  rewrite <- sqrt_spec in Hr, Hnan. split; [|apply nn_signbit, Hr].
  unfold Np.math_sqrt.
  destruct (is_nan (sqrt x)) eqn:E1; [|reflexivity].
  apply is_nan_spec in E1. apply Hnan, is_nan_spec in E1. rewrite E1. reflexivity.
Qed.

(** [math.sqrt] raises on every value below zero. *)
Lemma math_sqrt_neg (x : float) (w : world) :
  (x <? 0)%float = true ->
  Np.math_sqrt x w = (Raises (ValueError "math domain error"), w).
Proof.
  intros Hx. apply ltb_0_neg in Hx. destruct Hx as [Hs Hz].
  unfold Np.math_sqrt.
  assert (H1 : is_nan (sqrt x) = true).
  { apply is_nan_spec. rewrite sqrt_spec. unfold SF64sqrt.
    destruct (Prim2SF x) as [s|[]| |[] m e]; simpl in *; try discriminate Hs; auto.
    destruct (Hz s eq_refl). }
  assert (H2 : is_nan x = false).
  { destruct (is_nan x) eqn:E; [|reflexivity].
    apply is_nan_spec in E. rewrite E in Hs. discriminate. }
  rewrite H1, H2. reflexivity.
Qed.

End FloatFacts.

(** ** Facts about the numpy operations *)

Module NpFacts.
Import Py FloatFacts.

Lemma same_value_refl (x : float) : Np.same_value x x = true.
Proof. apply same_value_class. reflexivity. Qed.

Lemma same_value_sym (x y : float) :
  Np.same_value x y = true -> Np.same_value y x = true.
Proof. rewrite !same_value_class. auto. Qed.

Lemma same_value_trans (x y z : float) :
  Np.same_value x y = true -> Np.same_value y z = true ->
  Np.same_value x z = true.
Proof. rewrite !same_value_class. congruence. Qed.

Lemma insert_sorted_perm (x : float) (l : list float) :
  Np.insert_sorted x l ≡ₚ x :: l.
Proof.
  induction l as [|y l IH]; simpl; [reflexivity|].
  destruct (Np.npy_lt x y); [reflexivity|].
  rewrite IH. apply perm_swap.
Qed.

(** Sorting rearranges the elements and nothing else. *)
Lemma sort_perm (l : list float) : Np.sort l ≡ₚ l.
Proof.
  induction l as [|x l IH]; simpl; [reflexivity|].
  rewrite insert_sorted_perm, IH. reflexivity.
Qed.

(** The mask keeps nothing after [prev] exactly when every later element is
    the same value as [prev]. *)
Lemma drop_repeats_nil (l : list float) (prev : float) :
  Np.drop_repeats prev l = [] <->
  Forall (fun y => Np.same_value prev y = true) l.
Proof.
  revert prev. induction l as [|x l IH]; intros prev; simpl.
  - split; [constructor | reflexivity].
  - destruct (Np.same_value prev x) eqn:E.
    + rewrite IH. split.
      * intros H. constructor; [exact E|].
        eapply Forall_impl; [exact H|]. simpl. intros y Hy.
        eapply same_value_trans; eassumption.
      * intros H. inversion H as [|? ? _ Hl]; subst.
        eapply Forall_impl; [exact Hl|]. simpl. intros y Hy.
        eapply same_value_trans; [apply same_value_sym|]; eassumption.
    + split; [discriminate|]. intros H. inversion H; congruence.
Qed.

Lemma unique_sorted_one (l : list float) :
  length (Np.unique_sorted l) = 1%nat <->
  exists x l', l = x :: l' /\ Forall (fun y => Np.same_value x y = true) l'.
Proof.
  destruct l as [|x l]; simpl.
  - split; [discriminate | intros (?&?&?&?); discriminate].
  - split.
    + intros H. exists x, l. split; [reflexivity|]. apply drop_repeats_nil.
      destruct (Np.drop_repeats x l); [reflexivity | discriminate].
    + intros (x'&l'&Heq&H). injection Heq as <- <-.
      apply drop_repeats_nil in H. rewrite H. reflexivity.
Qed.

(** [np.unique(m).shape[0] == 1] holds exactly for a non-empty array whose
    elements are all one value. *)
Lemma unique_count_one (ms : list float) :
  length (Np.unique_sorted (Np.sort ms)) = 1%nat <->
  ms <> [] /\ forall x y, x ∈ ms -> y ∈ ms -> Np.same_value x y = true.
Proof.
  rewrite unique_sorted_one. split.
  - intros (x&l'&Hs&Hall). pose proof (sort_perm ms) as Hp. rewrite Hs in Hp.
    assert (Hx : forall y, y ∈ ms -> Np.same_value x y = true).
    { intros y Hy. rewrite <- Hp in Hy. apply elem_of_cons in Hy as [->|Hy].
      - apply same_value_refl.
      - rewrite Forall_forall in Hall. apply Hall, Hy. }
    split.
    + intros ->. apply Permutation_nil_r in Hp. discriminate.
    + intros a b Ha Hb. eapply same_value_trans;
        [apply same_value_sym, Hx, Ha | apply Hx, Hb].
  - intros [Hne Hall]. pose proof (sort_perm ms) as Hp.
    destruct (Np.sort ms) as [|x l'] eqn:Hs.
    + symmetry in Hp. apply Permutation_nil_r in Hp. contradiction.
    + exists x, l'. split; [reflexivity|]. apply Forall_forall. intros y Hy.
      apply Hall; rewrite <- Hp; [left | right; exact Hy].
Qed.

Lemma unique_count_replicate (n : nat) (x : float) :
  (1 <= n)%nat -> length (Np.unique_sorted (Np.sort (replicate n x))) = 1%nat.
Proof.
  intros Hn. apply unique_count_one. split.
  - destruct n; [lia | discriminate].
  - intros a b Ha Hb. apply elem_of_replicate in Ha as [-> _].
    apply elem_of_replicate in Hb as [-> _]. apply same_value_refl.
Qed.

End NpFacts.

(** ** Running the sampler *)

Module Run.
Import Py FloatFacts NpFacts Props.

Lemma bind_returns {A B : Type} (c : M A) (k : A -> M B) (w w' : world) (a : A) :
  c w = (Returns a, w') -> bind c k w = k a w'.
Proof. unfold bind. intros ->. reflexivity. Qed.

Lemma bind_raises {A B : Type} (c : M A) (k : A -> M B) (w w' : world) (e : exn) :
  c w = (Raises e, w') -> bind c k w = (Raises e, w').
Proof. unfold bind. intros ->. reflexivity. Qed.

Lemma fresh_lookup (h : gmap loc ndarray) : h !! fresh (dom h) = None.
Proof. apply not_elem_of_dom, is_fresh. Qed.

Lemma load_run (w : world) (p : loc) (a : ndarray) :
  heap w !! p = Some a -> load p w = (Returns a, w).
Proof. unfold load. intros ->. reflexivity. Qed.

Lemma py_len_run (w : world) (p : loc) (xs : list float) :
  heap w !! p = Some (array1 xs) -> py_len p w = (Returns (length xs), w).
Proof. intros H. unfold py_len. rewrite (bind_returns _ _ _ _ _ (load_run _ _ _ H)). reflexivity. Qed.

Lemma shape0_run (w : world) (p : loc) (xs : list float) :
  heap w !! p = Some (array1 xs) -> shape0 p w = (Returns (length xs), w).
Proof. intros H. unfold shape0. rewrite (bind_returns _ _ _ _ _ (load_run _ _ _ H)). reflexivity. Qed.

Lemma getitem0_run (w : world) (p : loc) (x : float) (xs : list float) :
  heap w !! p = Some (array1 (x :: xs)) -> getitem0 p w = (Returns (Scalar x), w).
Proof. intros H. unfold getitem0. rewrite (bind_returns _ _ _ _ _ (load_run _ _ _ H)). reflexivity. Qed.

(** The quotient by a scalar mass is a scalar, and converts as it is. *)
Lemma scalar_quotient_run {B : Type} (x m0 : float) (k : float -> M B) (w : world) :
  bind (Np.as_double (Np.rtruediv x (Scalar m0))) k w = k (x / m0) w.
Proof. reflexivity. Qed.

Lemma bind_ret_r {A : Type} (c : M A) (w : world) : bind c (fun a => ret a) w = c w.
Proof. unfold bind, ret. destruct (c w) as [[a|e] w']; reflexivity. Qed.

(** [np.unique] returns a new array with the unique elements, draws nothing
    and keeps every array it found. *)
Lemma unique_run (w : world) (ar : loc) (a : ndarray) :
  heap w !! ar = Some a ->
  exists u w',
    Np.unique ar w = (Returns u, w') /\
    heap w' !! u = Some (array1 (Np.unique_sorted (Np.sort (data a)))) /\
    heap w ⊆ heap w' /\
    np_random w' = np_random w.
Proof.
  intros H. unfold Np.unique.
  rewrite (bind_returns _ _ _ _ _ (load_run _ _ _ H)).
  unfold bind, alloc, store_data, load. simpl.
  rewrite lookup_insert_eq. simpl. rewrite lookup_insert_eq. simpl.
  eexists _, _. split; [reflexivity|]. simpl.
  split; [apply lookup_insert_eq|]. split; [|reflexivity].
  rewrite insert_insert_eq.
  etrans; [|apply insert_subseteq, fresh_lookup].
  apply insert_subseteq, fresh_lookup.
Qed.

Lemma fill_normal_run (loc scale : float) (count : nat) (w : world) :
  Np.fill_normal loc scale count w =
  (Returns ((fun z => loc + scale * z) <$> next_draws (np_random w) count),
   {| heap := heap w; np_random := advanced (np_random w) count |}).
Proof.
  revert w. induction count as [|count IH]; intros [h [g c]]; simpl.
  - unfold ret, advanced. simpl. rewrite Nat.add_0_r. reflexivity.
  - unfold bind, Np.legacy_gauss. simpl. rewrite IH. simpl.
    unfold ret, next_draws, advanced. simpl.
    rewrite Nat.add_0_r, <- fmap_S_seq, <- !list_fmap_compose.
    replace (S (c + count)) with (c + S count)%nat by lia.
    f_equal. f_equal. f_equal.
    apply list_fmap_ext. intros _ i _. simpl. f_equal. f_equal. f_equal. lia.
Qed.

(** A size within numpy's bounds passes the conversion and the checks. *)
Lemma sample_size_ok (n : nat) (dim : Z) :
  (1 <= n)%nat -> (0 <= dim)%Z ->
  (8 * Z.of_nat n <= Np.npy_max_intp)%Z ->
  (8 * Z.of_nat n * dim <= Np.npy_max_intp)%Z ->
  forallb Np.fits_intp [Z.of_nat n; dim] = true /\
  Np.check_dims 8 [Z.of_nat n; dim] = None.
Proof.
  intros Hn Hd H1 H2. unfold Np.npy_max_intp in *. split.
  - simpl. unfold Np.fits_intp, Np.npy_max_intp.
    rewrite !andb_true_iff, !Z.leb_le. repeat split; nia.
  - simpl. unfold Np.npy_max_intp.
    destruct (Z.eqb_spec (Z.of_nat n) 0); [lia|].
    destruct (Z.ltb_spec (Z.of_nat n) 0); [lia|].
    destruct (Z.ltb_spec (2 ^ 63 - 1) (8 * Z.of_nat n)); [lia|].
    destruct (Z.eqb_spec dim 0); [reflexivity|].
    destruct (Z.ltb_spec dim 0); [lia|].
    destruct (Z.ltb_spec (2 ^ 63 - 1) (8 * Z.of_nat n * dim)); [lia|]. reflexivity.
Qed.

(** The checks only ever refuse with one of two messages. *)
Lemma check_dims_msg (nbytes : Z) (dims : list Z) (msg : string) :
  Np.check_dims nbytes dims = Some msg ->
  msg = "negative dimensions are not allowed"%string \/ msg = Np.too_big_msg.
Proof.
  revert nbytes. induction dims as [|d dims IH]; intros nbytes; simpl; [discriminate|].
  destruct (d =? 0)%Z; [apply IH|].
  destruct (d <? 0)%Z; [intros [= <-]; left; reflexivity|].
  destruct (Np.npy_max_intp <? nbytes * d)%Z; [intros [= <-]; right; reflexivity|].
  apply IH.
Qed.

(** A size that passes the checks has no negative dimension. *)
Lemma check_dims_nonneg (nbytes : Z) (n : nat) (dim : Z) :
  Np.check_dims nbytes [Z.of_nat n; dim] = None -> (0 <= dim)%Z.
Proof.
  simpl.
  destruct (Z.of_nat n =? 0)%Z;
    [|destruct (Z.of_nat n <? 0)%Z; [discriminate|];
      destruct (Np.npy_max_intp <? nbytes * Z.of_nat n)%Z; [discriminate|]];
    (destruct (Z.eqb_spec dim 0); [lia|]);
    (destruct (Z.ltb_spec dim 0); [discriminate | lia]).
Qed.

(** A negative dimension that converts is refused as such. *)
Lemma check_dims_negative (n : nat) (dim : Z) :
  (1 <= n)%nat -> (8 * Z.of_nat n <= Np.npy_max_intp)%Z ->
  (- 2 ^ 63 <= dim < 0)%Z ->
  forallb Np.fits_intp [Z.of_nat n; dim] = true /\
  Np.check_dims 8 [Z.of_nat n; dim] = Some "negative dimensions are not allowed"%string.
Proof.
  intros Hn H1 Hd. unfold Np.npy_max_intp in *. split.
  - simpl. unfold Np.fits_intp, Np.npy_max_intp.
    rewrite !andb_true_iff, !Z.leb_le. repeat split; lia.
  - simpl. unfold Np.npy_max_intp.
    destruct (Z.eqb_spec (Z.of_nat n) 0); [lia|].
    destruct (Z.ltb_spec (Z.of_nat n) 0); [lia|].
    destruct (Z.ltb_spec (2 ^ 63 - 1) (8 * Z.of_nat n)); [lia|].
    destruct (Z.eqb_spec dim 0); [lia|].
    destruct (Z.ltb_spec dim 0); [reflexivity | lia].
Qed.

(** Every way [np.random.normal] can end. *)
Lemma random_normal_eq (loc scale : float) (n : nat) (dim : Z) (w : world) :
  Np.random_normal loc scale n dim w =
  if Np.signbit_set scale then (Raises (ValueError "scale < 0"), w)
  else if negb (forallb Np.fits_intp [Z.of_nat n; dim])
  then (Raises (ValueError "Maximum allowed dimension exceeded"), w)
  else match Np.check_dims 8 [Z.of_nat n; dim] with
       | Some msg => (Raises (ValueError msg), w)
       | None =>
           (Returns (fresh (dom (heap w))),
            {| heap := <[fresh (dom (heap w)) :=
                           {| shape := [n; Z.to_nat dim];
                              data := (fun z => loc + scale * z) <$>
                                      next_draws (np_random w) (n * Z.to_nat dim) |}]>
                         (heap w);
               np_random := advanced (np_random w) (n * Z.to_nat dim) |})
       end.
Proof.
  unfold Np.random_normal. destruct (Np.signbit_set scale); [reflexivity|].
  unfold bind at 1. unfold Np.empty.
  destruct (negb (forallb Np.fits_intp [Z.of_nat n; dim])); [reflexivity|].
  destruct (Np.check_dims 8 [Z.of_nat n; dim]); [reflexivity|].
  unfold alloc. unfold bind at 1. rewrite fill_normal_run.
  unfold bind, store_data, ret. simpl. rewrite lookup_insert_eq. simpl.
  rewrite insert_insert_eq, Nat2Z.id. reflexivity.
Qed.

Lemma random_normal_run (loc scale : float) (n : nat) (dim : Z) (w : world) :
  Np.signbit_set scale = false ->
  (1 <= n)%nat -> (0 <= dim)%Z ->
  (8 * Z.of_nat n <= Np.npy_max_intp)%Z ->
  (8 * Z.of_nat n * dim <= Np.npy_max_intp)%Z ->
  Np.random_normal loc scale n dim w =
  (Returns (fresh (dom (heap w))),
   {| heap := <[fresh (dom (heap w)) :=
                  {| shape := [n; Z.to_nat dim];
                     data := (fun z => loc + scale * z) <$>
                             next_draws (np_random w) (n * Z.to_nat dim) |}]>
                (heap w);
      np_random := advanced (np_random w) (n * Z.to_nat dim) |}).
Proof.
  intros Hs Hn Hd H1 H2. rewrite random_normal_eq, Hs.
  destruct (sample_size_ok n dim Hn Hd H1 H2) as [-> ->]. reflexivity.
Qed.

(** Up to the test of the masses: the sampler has only made temporaries. *)
Lemma generate_velocities_prefix
    (w : world) (m : loc) (ms : list float) (dim : Z) (T : float) (kb : option float) :
  heap w !! m = Some (array1 ms) ->
  exists w1,
    heap w ⊆ heap w1 /\ np_random w1 = np_random w /\
    generate_velocities m dim T kb w =
    if Nat.eqb (length (Np.unique_sorted (Np.sort ms))) 1
    then (m0 <- getitem0 m ;;
          x <- Np.as_double (Np.rtruediv (default 1 kb * T) m0) ;;
          std_dev <- Np.math_sqrt x ;;
          velocities <- Np.random_normal 0 std_dev (length ms) dim ;;
          ret velocities) w1
    else (Raises (NotImplementedError different_masses_msg), w1).
Proof.
  intros H. destruct (unique_run w m _ H) as (u & w1 & Hu & Hlu & Hsub & Hrs).
  exists w1. split; [exact Hsub|]. split; [exact Hrs|].
  unfold generate_velocities.
  rewrite (bind_returns _ _ _ _ _ (py_len_run _ _ _ H)).
  rewrite (bind_returns _ _ _ _ _ Hu).
  rewrite (bind_returns _ _ _ _ _ (shape0_run _ _ _ Hlu)).
  simpl. destruct (Nat.eqb _ 1); reflexivity.
Qed.

End Run.

(** ** What a call may change *)

Module Effects.
Import Py FloatFacts NpFacts Props Run.

Lemma keeps_heap_ret {A : Type} (a : A) : keeps_heap (ret a).
Proof. intros w. reflexivity. Qed.

Lemma keeps_heap_raise {A : Type} (e : exn) : keeps_heap (@raise A e).
Proof. intros w. reflexivity. Qed.

Lemma keeps_heap_bind {A B : Type} (c : M A) (k : A -> M B) :
  keeps_heap c -> (forall a, keeps_heap (k a)) -> keeps_heap (bind c k).
Proof.
  intros Hc Hk w. unfold bind. specialize (Hc w).
  destruct (c w) as [[a|e] w']; simpl in *; [|exact Hc].
  etrans; [exact Hc | apply Hk].
Qed.

Lemma keeps_heap_load (p : loc) : keeps_heap (load p).
Proof. intros w. unfold load. destruct (heap w !! p); reflexivity. Qed.

Lemma keeps_heap_alloc (a : ndarray) : keeps_heap (alloc a).
Proof. intros w. simpl. apply insert_subseteq, fresh_lookup. Qed.

Lemma keeps_heap_py_len (p : loc) : keeps_heap (py_len p).
Proof.
  apply keeps_heap_bind; [apply keeps_heap_load|].
  intros a. destruct (shape a); [apply keeps_heap_raise | apply keeps_heap_ret].
Qed.

Lemma keeps_heap_shape0 (p : loc) : keeps_heap (shape0 p).
Proof.
  apply keeps_heap_bind; [apply keeps_heap_load|].
  intros a. destruct (shape a); [apply keeps_heap_raise | apply keeps_heap_ret].
Qed.

Lemma keeps_heap_getitem0 (p : loc) : keeps_heap (getitem0 p).
Proof.
  apply keeps_heap_bind; [apply keeps_heap_load|].
  intros a. destruct (shape a) as [|n [|n' rest]]; [apply keeps_heap_raise | |].
  - destruct (data a); [apply keeps_heap_raise | apply keeps_heap_ret].
  - destruct (Nat.eqb n 0); [apply keeps_heap_raise | apply keeps_heap_ret].
Qed.

Lemma keeps_heap_as_double (v : item) : keeps_heap (Np.as_double v).
Proof.
  destruct v as [x|a]; simpl; [apply keeps_heap_ret|].
  destruct (data a) as [|x [|y l]];
    [apply keeps_heap_raise | apply keeps_heap_ret | apply keeps_heap_raise].
Qed.

(** The in-place sort inside [np.unique] works on the copy, never on the
    argument. *)
Lemma keeps_heap_unique (ar : loc) : keeps_heap (Np.unique ar).
Proof.
  intros w. destruct (heap w !! ar) as [a|] eqn:H.
  - destruct (unique_run w ar a H) as (u & w' & -> & _ & Hsub & _). exact Hsub.
  - unfold Np.unique, bind, load. rewrite H. reflexivity.
Qed.

Lemma keeps_heap_math_sqrt (x : float) : keeps_heap (Np.math_sqrt x).
Proof.
  unfold Np.math_sqrt. destruct (_ && _); [apply keeps_heap_raise | apply keeps_heap_ret].
Qed.

Lemma keeps_heap_fill_normal (loc scale : float) (count : nat) :
  keeps_heap (Np.fill_normal loc scale count).
Proof. intros w. rewrite fill_normal_run. reflexivity. Qed.

(** The sample is written into the array allocated for it. *)
Lemma keeps_heap_random_normal (loc scale : float) (n : nat) (dim : Z) :
  keeps_heap (Np.random_normal loc scale n dim).
Proof.
  intros w. rewrite random_normal_eq.
  destruct (Np.signbit_set scale); [reflexivity|].
  destruct (negb _); [reflexivity|].
  destruct (Np.check_dims _ _); [reflexivity|].
  simpl. apply insert_subseteq, fresh_lookup.
Qed.

Lemma keeps_heap_generate_velocities
    (m : loc) (dim : Z) (T : float) (kb : option float) :
  keeps_heap (generate_velocities m dim T kb).
Proof.
  unfold generate_velocities.
  apply keeps_heap_bind; [apply keeps_heap_py_len | intros n].
  apply keeps_heap_bind; [apply keeps_heap_unique | intros u].
  apply keeps_heap_bind; [apply keeps_heap_shape0 | intros k].
  apply keeps_heap_bind.
  { destruct (Nat.eqb k 1); [apply keeps_heap_getitem0 | apply keeps_heap_raise]. }
  intros m0.
  apply keeps_heap_bind; [apply keeps_heap_as_double | intros x].
  apply keeps_heap_bind; [apply keeps_heap_math_sqrt | intros std_dev].
  apply keeps_heap_bind; [apply keeps_heap_random_normal | intros v].
  apply keeps_heap_ret.
Qed.

End Effects.

(** ** The sampler: results *)

Import Py FloatFacts NpFacts Props Run Effects.

(** C1 (amended).  For a masses array of length [N >= 1] whose entries all
    are one value [m0 > 0], a dimension [dim >= 0] with a sample of at most
    [2^63 - 1] bytes ([8 * N * dim], numpy's bound on the size of an array),
    and a temperature [T >= 0] and Boltzmann constant [kb >= 0] whose sign
    bit is clear ([kb] being 1.0 when omitted), [generate_velocities] returns
    a new array of shape [(N, dim)] whose component [(i, j)] is
    [0 + sqrt (kb * T / m0) * z], with [z] the variate number [i * dim + j]
    among the next standard-normal variates of numpy's process-wide
    generator; the call consumes exactly [N * dim] variates. *)
Theorem generate_velocities_uniform_masses
    (w : world) (m : loc) (N : nat) (m0 : float) (dim : Z) (T : float)
    (kb : option float) :
  heap w !! m = Some (array1 (replicate N m0)) ->
  (1 <= N)%nat ->
  (0 <? m0) = true ->
  (0 <= dim)%Z ->
  (8 * Z.of_nat N <= Np.npy_max_intp)%Z ->
  (8 * Z.of_nat N * dim <= Np.npy_max_intp)%Z ->
  (0 <=? T) = true -> Np.signbit_set T = false ->
  (0 <=? default 1 kb) = true -> Np.signbit_set (default 1 kb) = false ->
  exists (v : loc) (w' : world) (a : ndarray),
    generate_velocities m dim T kb w = (Returns v, w') /\
    heap w !! v = None /\
    heap w' !! v = Some a /\
    shape a = [N; Z.to_nat dim] /\
    length (data a) = (N * Z.to_nat dim)%nat /\
    (forall i j : nat, (i < N)%nat -> (j < Z.to_nat dim)%nat ->
       data a !! (i * Z.to_nat dim + j)%nat =
       Some (0 + sqrt (default 1 kb * T / m0) *
                 gauss_stream (np_random w)
                   (consumed (np_random w) + (i * Z.to_nat dim + j)))) /\
    np_random w' = advanced (np_random w) (N * Z.to_nat dim).
Proof.
  intros Hm HN Hm0 Hdim Hsize1 Hsize HT HT' Hkb Hkb'.
  destruct (generate_velocities_prefix w m _ dim T kb Hm)
    as (w1 & Hsub & Hrs & Heq).
  rewrite Heq, (unique_count_replicate N m0 HN). simpl.
  assert (Hm1 : heap w1 !! m = Some (array1 (m0 :: replicate (N - 1) m0))).
  { eapply lookup_weaken; [|exact Hsub]. rewrite Hm.
    destruct N; [lia|]. simpl. rewrite Nat.sub_0_r. reflexivity. }
  rewrite (bind_returns _ _ _ _ _ (getitem0_run _ _ _ _ Hm1)).
  rewrite scalar_quotient_run.
  pose proof (variance_nn _ _ _ Hkb Hkb' HT HT' Hm0) as Hnn.
  destruct (math_sqrt_nn _ w1 Hnn) as [Hsqrt Hsign].
  rewrite (bind_returns _ _ _ _ _ Hsqrt).
  rewrite length_replicate.
  rewrite (bind_returns _ _ _ _ _
             (random_normal_run _ _ _ _ _ Hsign HN Hdim Hsize1 Hsize)).
  eexists _, _, _. split; [reflexivity|]. simpl.
  split. { eapply lookup_weaken_None; [apply fresh_lookup | exact Hsub]. }
  split; [apply lookup_insert_eq|]. simpl.
  split; [reflexivity|].
  split. { unfold next_draws. rewrite !length_fmap, length_seq. reflexivity. }
  split; [|rewrite Hrs; reflexivity].
  intros i j Hi Hj. unfold next_draws. rewrite Hrs.
  rewrite !list_lookup_fmap, lookup_seq_lt by nia. reflexivity.
Qed.

(** C2.  A masses array holding two elements that are distinct values makes
    [generate_velocities] raise NotImplementedError: no array is returned and
    no variate has been drawn. *)
Theorem generate_velocities_distinct_masses_unsupported
    (w : world) (m : loc) (ms : list float) (x y : float) (dim : Z) (T : float)
    (kb : option float) :
  heap w !! m = Some (array1 ms) ->
  x ∈ ms -> y ∈ ms -> Np.same_value x y = false ->
  exists w' : world,
    generate_velocities m dim T kb w =
      (Raises (NotImplementedError different_masses_msg), w') /\
    np_random w' = np_random w.
Proof.
  intros Hm Hx Hy Hxy.
  destruct (generate_velocities_prefix w m _ dim T kb Hm)
    as (w1 & Hsub & Hrs & Heq).
  exists w1. split; [|exact Hrs]. rewrite Heq.
  destruct (Nat.eqb_spec (length (Np.unique_sorted (Np.sort ms))) 1) as [H1|_];
    [|reflexivity].
  apply unique_count_one in H1 as [_ H1]. rewrite (H1 x y Hx Hy) in Hxy.
  discriminate.
Qed.

(** C8.  On an empty masses array [generate_velocities] raises the same
    NotImplementedError: [np.unique] finds no value, and the test asks for
    exactly one. *)
Theorem generate_velocities_empty_masses_unsupported
    (w : world) (m : loc) (dim : Z) (T : float) (kb : option float) :
  heap w !! m = Some (array1 []) ->
  exists w' : world,
    generate_velocities m dim T kb w =
      (Raises (NotImplementedError different_masses_msg), w') /\
    np_random w' = np_random w.
Proof.
  intros Hm.
  destruct (generate_velocities_prefix w m _ dim T kb Hm)
    as (w1 & Hsub & Hrs & Heq).
  exists w1. split; [exact Heq | exact Hrs].
Qed.

(** C9.  Nothing checks the signs of the inputs: with all masses one value
    [m0], whenever [kb * T / m0] is below zero the call reaches [math.sqrt]
    and ends there with ValueError (math domain error), not with the
    NotImplementedError of the masses test. *)
Theorem generate_velocities_negative_variance_domain_error
    (w : world) (m : loc) (N : nat) (m0 : float) (dim : Z) (T : float)
    (kb : option float) :
  heap w !! m = Some (array1 (replicate N m0)) ->
  (1 <= N)%nat ->
  (default 1 kb * T / m0 <? 0) = true ->
  exists w' : world,
    generate_velocities m dim T kb w =
      (Raises (ValueError "math domain error"), w') /\
    np_random w' = np_random w.
Proof.
  intros Hm HN Hneg.
  destruct (generate_velocities_prefix w m _ dim T kb Hm)
    as (w1 & Hsub & Hrs & Heq).
  exists w1. split; [|exact Hrs].
  rewrite Heq, (unique_count_replicate N m0 HN). simpl.
  assert (Hm1 : heap w1 !! m = Some (array1 (m0 :: replicate (N - 1) m0))).
  { eapply lookup_weaken; [|exact Hsub]. rewrite Hm.
    destruct N; [lia|]. simpl. rewrite Nat.sub_0_r. reflexivity. }
  rewrite (bind_returns _ _ _ _ _ (getitem0_run _ _ _ _ Hm1)).
  rewrite scalar_quotient_run.
  rewrite (bind_raises _ _ _ _ _ (math_sqrt_neg _ w1 Hneg)). reflexivity.
Qed.

(** C10.  However the call ends, the caller's masses array holds afterwards
    what it held before. *)
Theorem generate_velocities_keeps_masses
    (w : world) (m : loc) (a : ndarray) (dim : Z) (T : float) (kb : option float) :
  heap w !! m = Some a ->
  heap (snd (generate_velocities m dim T kb w)) !! m = Some a.
Proof.
  intros Hm. eapply lookup_weaken; [exact Hm|].
  apply keeps_heap_generate_velocities.
Qed.

(** *** The theorems at concrete inputs *)

(** Three masses 4.0, two dimensions, T = 1, kb omitted. *)
Lemma generate_velocities_uniform_masses_witness :
  exists (v : loc) (w' : world) (a : ndarray),
    generate_velocities 1%positive 2 1 None (world_with [4; 4; 4] (rs_ramp 0.5)) =
      (Returns v, w') /\
    heap (world_with [4; 4; 4] (rs_ramp 0.5)) !! v = None /\
    heap w' !! v = Some a /\
    shape a = [3%nat; Z.to_nat 2] /\
    length (data a) = (3 * Z.to_nat 2)%nat /\
    (forall i j : nat, (i < 3)%nat -> (j < Z.to_nat 2)%nat ->
       data a !! (i * Z.to_nat 2 + j)%nat =
       Some (0 + sqrt (default 1 None * 1 / 4) *
                 gauss_stream (np_random (world_with [4; 4; 4] (rs_ramp 0.5)))
                   (consumed (np_random (world_with [4; 4; 4] (rs_ramp 0.5))) +
                    (i * Z.to_nat 2 + j)))) /\
    np_random w' =
      advanced (np_random (world_with [4; 4; 4] (rs_ramp 0.5))) (3 * Z.to_nat 2).
Proof.
  apply (generate_velocities_uniform_masses
           (world_with [4; 4; 4] (rs_ramp 0.5)) 1%positive 3 4 2 1 None);
    first [reflexivity | lia | (vm_compute; discriminate)].
Defined.

(** C1 as stated fails: masses [1.0], T = 1, and a negative Boltzmann
    constant end in a ValueError, not in an array. *)
Lemma generate_velocities_negative_kb_raises :
  fst (generate_velocities 1%positive 2 1 (Some (-1)) (world_with [1] (rs_ramp 0.5))) =
  Raises (ValueError "math domain error").
Proof. vm_compute. reflexivity. Qed.

Lemma generate_velocities_distinct_masses_unsupported_witness :
  exists w' : world,
    generate_velocities 1%positive 2 1 None (world_with [1; 2] (rs_ramp 0.5)) =
      (Raises (NotImplementedError different_masses_msg), w') /\
    np_random w' = np_random (world_with [1; 2] (rs_ramp 0.5)).
Proof.
  apply (generate_velocities_distinct_masses_unsupported
           (world_with [1; 2] (rs_ramp 0.5)) 1%positive [1; 2] 1 2 2 1 None).
  - reflexivity.
  - apply list_elem_of_here.
  - apply list_elem_of_further, list_elem_of_here.
  - reflexivity.
Defined.

Lemma generate_velocities_empty_masses_unsupported_witness :
  exists w' : world,
    generate_velocities 1%positive 2 1 None (world_with [] (rs_ramp 0.5)) =
      (Raises (NotImplementedError different_masses_msg), w') /\
    np_random w' = np_random (world_with [] (rs_ramp 0.5)).
Proof.
  apply (generate_velocities_empty_masses_unsupported
           (world_with [] (rs_ramp 0.5)) 1%positive 2 1 None).
  reflexivity.
Defined.

(** Masses [1.0; 1.0] at the temperature -1. *)
Lemma generate_velocities_negative_variance_domain_error_witness :
  exists w' : world,
    generate_velocities 1%positive 2 (-1) None (world_with [1; 1] (rs_ramp 0.5)) =
      (Raises (ValueError "math domain error"), w') /\
    np_random w' = np_random (world_with [1; 1] (rs_ramp 0.5)).
Proof.
  apply (generate_velocities_negative_variance_domain_error
           (world_with [1; 1] (rs_ramp 0.5)) 1%positive 2 1 2 (-1) None);
    first [reflexivity | lia].
Defined.

(** A zero mass is not rejected either: dividing by a float64 zero gives
    infinity, its square root is infinity, and the call returns. *)
Example generate_velocities_zero_mass_returns :
  let r := generate_velocities 1%positive 1 1 None (world_with [0] (rs_ramp 0.5)) in
  fst r = Returns 4%positive /\
  heap (snd r) !! 4%positive = Some {| shape := [1%nat; 1%nat]; data := [infinity] |}.
Proof. vm_compute. split; reflexivity. Qed.

Lemma generate_velocities_keeps_masses_witness :
  heap (snd (generate_velocities 1%positive 2 1 None (world_with [1; 2] (rs_ramp 0.5))))
    !! 1%positive = Some (array1 [1; 2]).
Proof.
  apply (generate_velocities_keeps_masses
           (world_with [1; 2] (rs_ramp 0.5)) 1%positive (array1 [1; 2]) 2 1 None).
  reflexivity.
Defined.

(** C3 as stated fails: the same arguments and the same store give two
    different samples under two states of the process-wide generator, and a
    second call in the same process gives another sample than the first. *)
Lemma generate_velocities_reads_global_generator :
  sampled (generate_velocities 1%positive 1 1 None (world_with [1; 1] (rs_ramp 0.5)))
    = Some [0.5; 1] /\
  sampled (generate_velocities 1%positive 1 1 None (world_with [1; 1] (rs_ramp 0.25)))
    = Some [0.25; 0.5] /\
  sampled (generate_velocities 1%positive 1 1 None
             (snd (generate_velocities 1%positive 1 1 None
                     (world_with [1; 1] (rs_ramp 0.5)))))
    = Some [1.5; 2].
Proof. vm_compute. repeat split; reflexivity. Qed.

(** ** The sampler: every way a call can end *)

Module Cases.
Import Py FloatFacts NpFacts Props Run Effects.

Lemma keeps_generator_ret {A : Type} (a : A) : keeps_generator (ret a).
Proof. intros w. reflexivity. Qed.

Lemma keeps_generator_raise {A : Type} (e : exn) : keeps_generator (@raise A e).
Proof. intros w. reflexivity. Qed.

Lemma keeps_generator_bind {A B : Type} (c : M A) (k : A -> M B) :
  keeps_generator c -> (forall a, keeps_generator (k a)) -> keeps_generator (bind c k).
Proof.
  intros Hc Hk w. unfold bind. specialize (Hc w).
  destruct (c w) as [[a|e] w']; simpl in *; [|exact Hc].
  rewrite Hk. exact Hc.
Qed.

Lemma keeps_generator_load (p : loc) : keeps_generator (load p).
Proof. intros w. unfold load. destruct (heap w !! p); reflexivity. Qed.

Lemma keeps_generator_alloc (a : ndarray) : keeps_generator (alloc a).
Proof. intros w. reflexivity. Qed.

Lemma keeps_generator_store_data (p : loc) (xs : list float) :
  keeps_generator (store_data p xs).
Proof. intros w. unfold store_data. destruct (heap w !! p); reflexivity. Qed.

Lemma keeps_generator_py_len (p : loc) : keeps_generator (py_len p).
Proof.
  apply keeps_generator_bind; [apply keeps_generator_load|].
  intros a. destruct (shape a); [apply keeps_generator_raise | apply keeps_generator_ret].
Qed.

Lemma keeps_generator_shape0 (p : loc) : keeps_generator (shape0 p).
Proof.
  apply keeps_generator_bind; [apply keeps_generator_load|].
  intros a. destruct (shape a); [apply keeps_generator_raise | apply keeps_generator_ret].
Qed.

Lemma keeps_generator_getitem0 (p : loc) : keeps_generator (getitem0 p).
Proof.
  apply keeps_generator_bind; [apply keeps_generator_load|].
  intros a. destruct (shape a) as [|n [|n' rest]]; [apply keeps_generator_raise | |].
  - destruct (data a); [apply keeps_generator_raise | apply keeps_generator_ret].
  - destruct (Nat.eqb n 0); [apply keeps_generator_raise | apply keeps_generator_ret].
Qed.

Lemma keeps_generator_as_double (v : item) : keeps_generator (Np.as_double v).
Proof.
  destruct v as [x|a]; simpl; [apply keeps_generator_ret|].
  destruct (data a) as [|x [|y l]];
    [apply keeps_generator_raise | apply keeps_generator_ret | apply keeps_generator_raise].
Qed.

Lemma keeps_generator_unique (ar : loc) : keeps_generator (Np.unique ar).
Proof.
  unfold Np.unique.
  apply keeps_generator_bind; [apply keeps_generator_load | intros a].
  apply keeps_generator_bind; [apply keeps_generator_alloc | intros aux].
  apply keeps_generator_bind; [apply keeps_generator_store_data | intros _].
  apply keeps_generator_bind; [apply keeps_generator_load | intros s].
  apply keeps_generator_alloc.
Qed.

Lemma keeps_generator_math_sqrt (x : float) : keeps_generator (Np.math_sqrt x).
Proof.
  unfold Np.math_sqrt.
  destruct (_ && _); [apply keeps_generator_raise | apply keeps_generator_ret].
Qed.

Lemma failure_keeps_generator_bind {A B : Type} (c : M A) (k : A -> M B) :
  keeps_generator c -> (forall a, failure_keeps_generator (k a)) ->
  failure_keeps_generator (bind c k).
Proof.
  intros Hc Hk w e. unfold bind. specialize (Hc w).
  destruct (c w) as [[a|e'] w'] eqn:E; simpl in *; [|intros _; exact Hc].
  intros H. rewrite (Hk a w' e H). exact Hc.
Qed.

Lemma failure_keeps_generator_raise {A : Type} (e : exn) :
  failure_keeps_generator (@raise A e).
Proof. intros w e' _. reflexivity. Qed.

(** [np.random.normal] validates and allocates before it draws. *)
Lemma failure_keeps_generator_random_normal (loc scale : float) (n : nat) (dim : Z) :
  failure_keeps_generator (Np.random_normal loc scale n dim).
Proof.
  intros w e. rewrite random_normal_eq.
  destruct (Np.signbit_set scale); [reflexivity|].
  destruct (negb _); [reflexivity|].
  destruct (Np.check_dims _ _); [reflexivity|].
  simpl. discriminate.
Qed.

Lemma failure_keeps_generator_generate_velocities
    (m : loc) (dim : Z) (T : float) (kb : option float) :
  failure_keeps_generator (generate_velocities m dim T kb).
Proof.
  unfold generate_velocities.
  apply failure_keeps_generator_bind; [apply keeps_generator_py_len | intros n].
  apply failure_keeps_generator_bind; [apply keeps_generator_unique | intros u].
  apply failure_keeps_generator_bind; [apply keeps_generator_shape0 | intros k].
  apply failure_keeps_generator_bind.
  { destruct (Nat.eqb k 1); [apply keeps_generator_getitem0 | apply keeps_generator_raise]. }
  intros m0.
  apply failure_keeps_generator_bind; [apply keeps_generator_as_double | intros x].
  apply failure_keeps_generator_bind; [apply keeps_generator_math_sqrt | intros std_dev].
  intros w e. unfold bind.
  pose proof (failure_keeps_generator_random_normal 0 std_dev n dim w) as H.
  destruct (Np.random_normal 0 std_dev n dim w) as [[v|e'] w']; simpl in *.
  - discriminate.
  - intros _. apply (H e'). reflexivity.
Qed.

(** The masses the test lets through: the run from there on. *)
Lemma generate_velocities_accepted
    (w : world) (m : loc) (ms : list float) (dim : Z) (T : float) (kb : option float) :
  heap w !! m = Some (array1 ms) ->
  length (Np.unique_sorted (Np.sort ms)) = 1%nat ->
  exists (m0 : float) (rest : list float) (w1 : world),
    ms = m0 :: rest /\
    heap w ⊆ heap w1 /\ np_random w1 = np_random w /\
    generate_velocities m dim T kb w =
    (std_dev <- Np.math_sqrt (default 1 kb * T / m0) ;;
     velocities <- Np.random_normal 0 std_dev (length ms) dim ;;
     ret velocities) w1.
Proof.
  intros Hm Hone.
  destruct (generate_velocities_prefix w m ms dim T kb Hm) as (w1 & Hsub & Hrs & Heq).
  destruct ms as [|m0 rest]; [discriminate Hone|].
  exists m0, rest, w1. split; [reflexivity|]. split; [exact Hsub|]. split; [exact Hrs|].
  rewrite Heq, Hone. simpl Nat.eqb. cbv iota.
  assert (Hm1 : heap w1 !! m = Some (array1 (m0 :: rest)))
    by (eapply lookup_weaken; [exact Hm | exact Hsub]).
  rewrite (bind_returns _ _ _ _ _ (getitem0_run _ _ _ _ Hm1)).
  rewrite scalar_quotient_run. reflexivity.
Qed.

(** The masses the test turns away. *)
Lemma generate_velocities_rejected
    (w : world) (m : loc) (ms : list float) (dim : Z) (T : float) (kb : option float) :
  heap w !! m = Some (array1 ms) ->
  length (Np.unique_sorted (Np.sort ms)) <> 1%nat ->
  exists w1 : world,
    generate_velocities m dim T kb w =
    (Raises (NotImplementedError different_masses_msg), w1).
Proof.
  intros Hm Hne.
  destruct (generate_velocities_prefix w m ms dim T kb Hm) as (w1 & Hsub & Hrs & Heq).
  exists w1. rewrite Heq.
  destruct (Nat.eqb_spec (length (Np.unique_sorted (Np.sort ms))) 1); [contradiction|].
  reflexivity.
Qed.

(** After the masses test: [math.sqrt], then [np.random.normal]. *)
Lemma sample_eq (x : float) (n : nat) (dim : Z) (w1 : world) :
  (std_dev <- Np.math_sqrt x ;;
   velocities <- Np.random_normal 0 std_dev n dim ;;
   ret velocities) w1 =
  if is_nan (sqrt x) && negb (is_nan x)
  then (Raises (ValueError "math domain error"), w1)
  else Np.random_normal 0 (sqrt x) n dim w1.
Proof.
  unfold Np.math_sqrt.
  destruct (is_nan (sqrt x) && negb (is_nan x)); [reflexivity|].
  rewrite (bind_returns (ret (sqrt x)) _ w1 w1 (sqrt x) eq_refl).
  apply bind_ret_r.
Qed.

(** After the masses test a call ends in one of five ways. *)
Lemma sample_cases (x : float) (n : nat) (dim : Z) (w1 : world) :
  let run := (std_dev <- Np.math_sqrt x ;;
              velocities <- Np.random_normal 0 std_dev n dim ;;
              ret velocities) w1 in
  (run = (Raises (ValueError "math domain error"), w1) /\
   (is_nan (sqrt x) && negb (is_nan x)) = true) \/
  (run = (Raises (ValueError "scale < 0"), w1) /\
   (is_nan (sqrt x) && negb (is_nan x)) = false /\ Np.signbit_set (sqrt x) = true) \/
  (run = (Raises (ValueError "Maximum allowed dimension exceeded"), w1) /\
   (is_nan (sqrt x) && negb (is_nan x)) = false /\ Np.signbit_set (sqrt x) = false /\
   forallb Np.fits_intp [Z.of_nat n; dim] = false) \/
  (exists msg : string,
     run = (Raises (ValueError msg), w1) /\
     (is_nan (sqrt x) && negb (is_nan x)) = false /\ Np.signbit_set (sqrt x) = false /\
     forallb Np.fits_intp [Z.of_nat n; dim] = true /\
     Np.check_dims 8 [Z.of_nat n; dim] = Some msg) \/
  (run = (Returns (fresh (dom (heap w1))),
          {| heap := <[fresh (dom (heap w1)) :=
                         {| shape := [n; Z.to_nat dim];
                            data := (fun z => 0 + sqrt x * z) <$>
                                    next_draws (np_random w1) (n * Z.to_nat dim) |}]>
                       (heap w1);
             np_random := advanced (np_random w1) (n * Z.to_nat dim) |}) /\
   (is_nan (sqrt x) && negb (is_nan x)) = false /\ Np.signbit_set (sqrt x) = false /\
   forallb Np.fits_intp [Z.of_nat n; dim] = true /\
   Np.check_dims 8 [Z.of_nat n; dim] = None).
Proof.
  intros run. subst run. rewrite sample_eq, random_normal_eq.
  destruct (is_nan (sqrt x) && negb (is_nan x)).
  { left. split; reflexivity. }
  right. destruct (Np.signbit_set (sqrt x)).
  { left. split; [reflexivity | split; reflexivity]. }
  right. destruct (forallb Np.fits_intp [Z.of_nat n; dim]); simpl negb; cbv iota.
  2:{ left. split; [reflexivity | split; [reflexivity | split; reflexivity]]. }
  right. destruct (Np.check_dims 8 [Z.of_nat n; dim]) as [msg|].
  - left. exists msg. repeat (split; [reflexivity|]). reflexivity.
  - right. repeat (split; [reflexivity|]). reflexivity.
Qed.

Lemma next_draws_app (rs : RandomState) (a b : nat) :
  next_draws rs (a + b) = next_draws rs a ++ next_draws (advanced rs a) b.
Proof.
  unfold next_draws, advanced. simpl.
  rewrite seq_app, fmap_app. f_equal.
  replace (seq (0 + a) b) with (Nat.add a <$> seq 0 b)
    by (rewrite fmap_add_seq; f_equal; lia).
  rewrite <- list_fmap_compose.
  apply list_fmap_ext. intros _ i _. simpl. f_equal. lia.
Qed.

(** Some element differs from [x], unless all are the same value as [x]. *)
Lemma all_same_or_other (x : float) (l : list float) :
  (forall y, y ∈ l -> Np.same_value x y = true) \/
  (exists y, y ∈ l /\ Np.same_value x y = false).
Proof.
  induction l as [|z l [IH|(y & Hy & Hxy)]].
  - left. intros y Hy. inversion Hy.
  - destruct (Np.same_value x z) eqn:E.
    + left. intros y Hy. apply elem_of_cons in Hy as [->|Hy]; [exact E | apply IH, Hy].
    + right. exists z. split; [left | exact E].
  - right. exists y. split; [right; exact Hy | exact Hxy].
Qed.

(** A function constant on the elements of a list maps it to a constant list. *)
Lemma fmap_const_on {A B : Type} (f : A -> B) (c : B) (l : list A) :
  (forall x, x ∈ l -> f x = c) -> f <$> l = replicate (length l) c.
Proof.
  induction l as [|x l IH]; intros H; simpl; [reflexivity|].
  rewrite (H x) by left. f_equal. apply IH. intros y Hy. apply H. right. exact Hy.
Qed.

End Cases.

(** ** Arithmetic at zero temperature *)

Module ZeroFacts.
Import Py FloatFacts.

Lemma Prim2SF_infinity : Prim2SF infinity = S754_infinity false.
Proof. reflexivity. Qed.

(** A finite float is a zero or a finite number. *)
Lemma is_finite_spec (x : float) :
  is_finite x = true ->
  (exists s, Prim2SF x = S754_zero s) \/ (exists s m e, Prim2SF x = S754_finite s m e).
Proof.
  unfold is_finite. rewrite negb_true_iff, orb_false_iff. intros [Hn Hi].
  destruct (Prim2SF x) as [s|s| |s m e] eqn:Hx.
  - left. exists s. reflexivity.
  - exfalso. unfold is_infinity in Hi.
    rewrite FloatAxioms.eqb_spec, abs_spec, Hx, Prim2SF_infinity in Hi.
    discriminate Hi.
  - exfalso. apply is_nan_spec in Hx. congruence.
  - right. exists s, m, e. reflexivity.
Qed.

(** At [T = 0.0] the standard deviation is [0.0]. *)
Lemma std_dev_at_zero (kb m0 : float) :
  is_finite kb = true -> (0 <=? kb)%float = true -> Np.signbit_set kb = false ->
  (0 <? m0)%float = true ->
  sqrt (kb * 0 / m0)%float = 0%float.
Proof.
  intros Hfin Hle Hsign Hm.
  apply Prim2SF_inj. rewrite sqrt_spec, div_spec, mul_spec, Prim2SF_zero.
  pose proof (leb_0_signbit kb Hle Hsign) as Hnn. unfold sf_nonneg in Hnn.
  pose proof (ltb_0_pos m0 Hm) as Hpos. unfold sf_pos in Hpos.
  destruct (is_finite_spec kb Hfin) as [[s Hk]|(s & mk & ek & Hk)];
    rewrite Hk in *; simpl in Hnn; injection Hnn as ->;
    destruct (Prim2SF m0) as [s0|[]| |[] mm em]; try contradiction; reflexivity.
Qed.

(** A finite variate scaled by [0.0] and shifted by [0] is [0.0]. *)
Lemma zero_scale_sample (z : float) :
  is_finite z = true -> (0 + 0 * z)%float = 0%float.
Proof.
  intros Hfin. apply Prim2SF_inj. rewrite add_spec, mul_spec, Prim2SF_zero.
  destruct (is_finite_spec z Hfin) as [[s Hz]|(s & mz & ez & Hz)];
    rewrite Hz; destruct s; reflexivity.
Qed.

End ZeroFacts.

(** ** The sampler: further results *)

Import Py FloatFacts NpFacts Props Run Effects Cases ZeroFacts.

(** C3 (amended).  The sampler has no parameter for a random source: it
    reads numpy's process-wide generator.  What a call gives is fixed by the
    masses, [dim], [T], [kb] and the variates that generator will hand out:
    two runs on equal one-dimensional masses arrays, in any two stores, from
    generator states that will hand out the same variates, end the same way
    (the same exception, or arrays with the same shape and elements) and
    leave generators that still agree; a run that returns has advanced the
    generator by exactly [len(m) * dim] variates, and one that raises has
    not advanced it. *)
Theorem generate_velocities_fixed_by_generator_state
    (w1 w2 : world) (m1 m2 : loc) (ms : list float) (dim : Z) (T : float)
    (kb : option float) :
  heap w1 !! m1 = Some (array1 ms) ->
  heap w2 !! m2 = Some (array1 ms) ->
  (forall k : nat,
     gauss_stream (np_random w1) (consumed (np_random w1) + k) =
     gauss_stream (np_random w2) (consumed (np_random w2) + k)) ->
  result_of (generate_velocities m1 dim T kb w1) =
    result_of (generate_velocities m2 dim T kb w2) /\
  np_random (snd (generate_velocities m1 dim T kb w1)) =
    advanced (np_random w1)
      match fst (generate_velocities m1 dim T kb w1) with
      | Returns _ => length ms * Z.to_nat dim
      | Raises _ => 0
      end /\
  np_random (snd (generate_velocities m2 dim T kb w2)) =
    advanced (np_random w2)
      match fst (generate_velocities m2 dim T kb w2) with
      | Returns _ => length ms * Z.to_nat dim
      | Raises _ => 0
      end /\
  (forall k : nat,
     gauss_stream (np_random (snd (generate_velocities m1 dim T kb w1)))
       (consumed (np_random (snd (generate_velocities m1 dim T kb w1))) + k) =
     gauss_stream (np_random (snd (generate_velocities m2 dim T kb w2)))
       (consumed (np_random (snd (generate_velocities m2 dim T kb w2))) + k)).
Proof.
  intros Hm1 Hm2 Hd.
  assert (Hkeep : forall rs : RandomState, advanced rs 0 = rs).
  { intros [g c]. unfold advanced. simpl. rewrite Nat.add_0_r. reflexivity. }
  destruct (Nat.eq_dec (length (Np.unique_sorted (Np.sort ms))) 1%nat) as [Hone|Hne].
  2:{ destruct (generate_velocities_rejected w1 m1 ms dim T kb Hm1 Hne) as (wa & Ha).
      destruct (generate_velocities_rejected w2 m2 ms dim T kb Hm2 Hne) as (wb & Hb).
      pose proof (failure_keeps_generator_generate_velocities m1 dim T kb w1 _
                    (f_equal fst Ha)) as Hga.
      pose proof (failure_keeps_generator_generate_velocities m2 dim T kb w2 _
                    (f_equal fst Hb)) as Hgb.
      rewrite Ha, Hb in *. unfold result_of. simpl in *.
      rewrite Hga, Hgb, !Hkeep. repeat split; try reflexivity; exact Hd. }
  destruct (generate_velocities_accepted w1 m1 ms dim T kb Hm1 Hone)
    as (m0 & rest & wa & Hms & _ & Hrsa & Ha).
  destruct (generate_velocities_accepted w2 m2 ms dim T kb Hm2 Hone)
    as (m0' & rest' & wb & Hms' & _ & Hrsb & Hb).
  assert (m0' = m0) as -> by congruence.
  rewrite Ha, Hb, !sample_eq, !random_normal_eq.
  unfold result_of.
  destruct (is_nan _ && negb _);
    [simpl; rewrite Hrsa, Hrsb, !Hkeep; repeat split; try reflexivity; exact Hd|].
  destruct (Np.signbit_set _);
    [simpl; rewrite Hrsa, Hrsb, !Hkeep; repeat split; try reflexivity; exact Hd|].
  destruct (negb _);
    [simpl; rewrite Hrsa, Hrsb, !Hkeep; repeat split; try reflexivity; exact Hd|].
  destruct (Np.check_dims _ _);
    [simpl; rewrite Hrsa, Hrsb, !Hkeep; repeat split; try reflexivity; exact Hd|].
  simpl. rewrite !lookup_insert_eq, Hrsa, Hrsb.
  split; [|split; [reflexivity | split; [reflexivity|]]].
  - do 3 f_equal. unfold next_draws. f_equal.
    apply list_fmap_ext. intros _ i _. apply Hd.
  - intros k. simpl. rewrite <- !Nat.add_assoc. apply Hd.
Qed.

(** X1.  A call that raises, whatever its arguments and whatever the state,
    has drawn no variate: every check comes before the first draw. *)
Theorem generate_velocities_failure_draws_nothing
    (w : world) (m : loc) (dim : Z) (T : float) (kb : option float) (e : exn) :
  fst (generate_velocities m dim T kb w) = Raises e ->
  np_random (snd (generate_velocities m dim T kb w)) = np_random w.
Proof. apply failure_keeps_generator_generate_velocities. Qed.

(** X2.  On a one-dimensional masses array a call can only raise the
    NotImplementedError of the masses test or a ValueError: from [math.sqrt],
    or from [np.random.normal] for its scale or for the size of the sample (a
    dimension that does not fit a 64-bit index, a negative dimension, more
    than [2^63 - 1] bytes).  In particular [m[0]] is never out of bounds: the
    masses test has turned the empty array away before. *)
Theorem generate_velocities_raises_only
    (w : world) (m : loc) (ms : list float) (dim : Z) (T : float)
    (kb : option float) (e : exn) :
  heap w !! m = Some (array1 ms) ->
  fst (generate_velocities m dim T kb w) = Raises e ->
  e = NotImplementedError different_masses_msg \/
  e = ValueError "math domain error" \/
  e = ValueError "scale < 0" \/
  e = ValueError "Maximum allowed dimension exceeded" \/
  e = ValueError "negative dimensions are not allowed" \/
  e = ValueError Np.too_big_msg.
Proof.
  intros Hm He.
  destruct (Nat.eq_dec (length (Np.unique_sorted (Np.sort ms))) 1%nat) as [Hone|Hne].
  - destruct (generate_velocities_accepted w m ms dim T kb Hm Hone)
      as (m0 & rest & w1 & _ & _ & _ & Heq).
    rewrite Heq in He.
    destruct (sample_cases (default 1 kb * T / m0) (length ms) dim w1)
      as [[Hr _]|[[Hr _]|[[Hr _]|[(msg & Hr & _ & _ & _ & Hmsg)|[Hr _]]]]];
      rewrite Hr in He; simpl in He; try discriminate He;
      injection He as <-; auto 6.
    destruct (check_dims_msg _ _ _ Hmsg) as [-> | ->]; auto 6.
  - destruct (generate_velocities_rejected w m ms dim T kb Hm Hne) as (w1 & Heq).
    rewrite Heq in He. injection He as <-. auto.
Qed.

(** X3.  On a one-dimensional masses array the call raises the
    NotImplementedError exactly when the array is empty or holds two elements
    that are distinct values; the temperature, the Boltzmann constant and the
    dimension play no part in it. *)
Theorem generate_velocities_unsupported_iff
    (w : world) (m : loc) (ms : list float) (dim : Z) (T : float)
    (kb : option float) :
  heap w !! m = Some (array1 ms) ->
  fst (generate_velocities m dim T kb w) =
    Raises (NotImplementedError different_masses_msg) <->
  ms = [] \/ exists x y, x ∈ ms /\ y ∈ ms /\ Np.same_value x y = false.
Proof.
  intros Hm. split.
  - intros He.
    destruct (Nat.eq_dec (length (Np.unique_sorted (Np.sort ms))) 1%nat) as [Hone|Hne].
    + exfalso.
      destruct (generate_velocities_accepted w m ms dim T kb Hm Hone)
        as (m0 & rest & w1 & _ & _ & _ & Heq).
      rewrite Heq in He.
      destruct (sample_cases (default 1 kb * T / m0) (length ms) dim w1)
        as [[Hr _]|[[Hr _]|[[Hr _]|[(msg & Hr & _)|[Hr _]]]]];
        rewrite Hr in He; discriminate He.
    + destruct ms as [|m0 rest]; [left; reflexivity | right].
      destruct (all_same_or_other m0 (m0 :: rest)) as [Hall|(y & Hy & Hxy)].
      * exfalso. apply Hne, unique_count_one. split; [discriminate|].
        intros a b Ha Hb. eapply same_value_trans;
          [apply same_value_sym, Hall, Ha | apply Hall, Hb].
      * exists m0, y. split; [left | split; [exact Hy | exact Hxy]].
  - intros Hbad.
    assert (Hne : length (Np.unique_sorted (Np.sort ms)) <> 1%nat).
    { intros Hone. apply unique_count_one in Hone as [Hnil Hall].
      destruct Hbad as [->|(x & y & Hx & Hy & Hxy)]; [contradiction|].
      rewrite (Hall x y Hx Hy) in Hxy. discriminate. }
    destruct (generate_velocities_rejected w m ms dim T kb Hm Hne) as (w1 & Heq).
    rewrite Heq. reflexivity.
Qed.

(** X4.  A call on a one-dimensional masses array returns only when the
    array is not empty and all its elements are one value, the dimension is
    not negative and [kb * T / m[0]] is not below zero.  What it returns is
    then a new array, of shape [(len(m), dim)], holding the next
    [len(m) * dim] variates of the process-wide generator scaled by
    [sqrt (kb * T / m[0])]: the first mass stands for all. *)
Theorem generate_velocities_returns_only
    (w w' : world) (m v : loc) (ms : list float) (dim : Z) (T : float)
    (kb : option float) :
  heap w !! m = Some (array1 ms) ->
  generate_velocities m dim T kb w = (Returns v, w') ->
  exists (m0 : float) (rest : list float),
    ms = m0 :: rest /\
    (forall y, y ∈ ms -> Np.same_value m0 y = true) /\
    (0 <= dim)%Z /\
    (default 1 kb * T / m0 <? 0) = false /\
    heap w !! v = None /\
    heap w' !! v =
      Some {| shape := [length ms; Z.to_nat dim];
              data := (fun z => 0 + sqrt (default 1 kb * T / m0) * z) <$>
                      next_draws (np_random w) (length ms * Z.to_nat dim) |} /\
    np_random w' = advanced (np_random w) (length ms * Z.to_nat dim).
Proof.
  intros Hm Hrun.
  destruct (Nat.eq_dec (length (Np.unique_sorted (Np.sort ms))) 1%nat) as [Hone|Hne].
  2:{ destruct (generate_velocities_rejected w m ms dim T kb Hm Hne) as (w1 & Heq).
      rewrite Heq in Hrun. discriminate Hrun. }
  destruct (generate_velocities_accepted w m ms dim T kb Hm Hone)
    as (m0 & rest & w1 & Hms & Hsub & Hrs & Heq).
  exists m0, rest. split; [exact Hms|].
  apply unique_count_one in Hone as [_ Hall].
  split. { intros y Hy. apply Hall; [rewrite Hms; left | exact Hy]. }
  rewrite Heq in Hrun.
  destruct (sample_cases (default 1 kb * T / m0) (length ms) dim w1)
    as [[Hr _]|[[Hr _]|[[Hr _]|[(msg & Hr & _)|[Hr (Hdom & _ & _ & Hdims)]]]]];
    rewrite Hr in Hrun; try discriminate Hrun.
  injection Hrun as <- <-. split; [exact (check_dims_nonneg _ _ _ Hdims)|].
  split.
  { destruct (default 1 kb * T / m0 <? 0) eqn:Hneg; [|reflexivity].
    pose proof (math_sqrt_neg _ w1 Hneg) as Hraise.
    unfold Np.math_sqrt in Hraise. rewrite Hdom in Hraise. discriminate Hraise. }
  split. { eapply lookup_weaken_None; [apply fresh_lookup | exact Hsub]. }
  simpl. split; [|rewrite Hrs; reflexivity].
  rewrite lookup_insert_eq, Hrs. reflexivity.
Qed.

(** X5.  Two calls in a row never hand out a variate twice: when a call on a
    one-dimensional masses array returns, the same call repeated on the state
    it left returns another new array, the first sample is still in place,
    and the two samples one after the other are the next
    [2 * len(m) * dim] variates of the generator, in order, each scaled by the
    same standard deviation. *)
Theorem generate_velocities_twice
    (w w1 : world) (m v1 : loc) (ms : list float) (dim : Z) (T : float)
    (kb : option float) :
  heap w !! m = Some (array1 ms) ->
  generate_velocities m dim T kb w = (Returns v1, w1) ->
  exists (v2 : loc) (w2 : world) (a1 a2 : ndarray) (m0 : float),
    generate_velocities m dim T kb w1 = (Returns v2, w2) /\
    v1 <> v2 /\
    heap w1 !! v1 = Some a1 /\
    heap w2 !! v1 = Some a1 /\
    heap w2 !! v2 = Some a2 /\
    head ms = Some m0 /\
    data a1 ++ data a2 =
      (fun z => 0 + sqrt (default 1 kb * T / m0) * z) <$>
      next_draws (np_random w) (length ms * Z.to_nat dim + length ms * Z.to_nat dim).
Proof.
  intros Hm Hrun.
  assert (Hone : length (Np.unique_sorted (Np.sort ms)) = 1%nat).
  { destruct (Nat.eq_dec (length (Np.unique_sorted (Np.sort ms))) 1%nat) as [H|Hne];
      [exact H|].
    destruct (generate_velocities_rejected w m ms dim T kb Hm Hne) as (w0 & Heq).
    rewrite Heq in Hrun. discriminate Hrun. }
  destruct (generate_velocities_accepted w m ms dim T kb Hm Hone)
    as (m0 & rest & wa & Hms & Hsub & Hrs & Heq).
  rewrite Heq in Hrun.
  destruct (sample_cases (default 1 kb * T / m0) (length ms) dim wa)
    as [[Hr _]|[[Hr _]|[[Hr _]|[(msg & Hr & _)
                               |[Hr (Hdom & Hsign & Hfits & Hdims)]]]]];
    rewrite Hr in Hrun; try discriminate Hrun.
  injection Hrun as <- <-. clear Hr Heq.
  set (n := (length ms * Z.to_nat dim)%nat) in *.
  set (std := sqrt (default 1 kb * T / m0)) in *.
  set (w1 := {| heap := <[fresh (dom (heap wa)) := _]> (heap wa); np_random := _ |}).
  assert (Hv1 : heap w1 !! fresh (dom (heap wa)) =
                Some {| shape := [length ms; Z.to_nat dim];
                        data := (fun z => 0 + std * z) <$> next_draws (np_random wa) n |})
    by apply lookup_insert_eq.
  assert (Hm1 : heap w1 !! m = Some (array1 ms)).
  { eapply lookup_weaken; [exact Hm|]. etrans; [exact Hsub|].
    apply insert_subseteq, fresh_lookup. }
  destruct (generate_velocities_accepted w1 m ms dim T kb Hm1 Hone)
    as (m0' & rest' & wb & Hms' & Hsub' & Hrs' & Heq').
  assert (m0' = m0) as -> by congruence.
  destruct (sample_cases (default 1 kb * T / m0) (length ms) dim wb)
    as [[_ Hc]|[[_ (_ & Hc)]|[[_ (_ & _ & Hc)]
                             |[(msg & _ & _ & _ & _ & Hc)|[Hr' _]]]]];
    [fold std in Hc; congruence | fold std in Hc; congruence
     | congruence | congruence |].
  eexists _, _, _, _, m0. split; [rewrite Heq'; exact Hr'|].
  assert (Hv1b : heap wb !! fresh (dom (heap wa)) =
                 Some {| shape := [length ms; Z.to_nat dim];
                         data := (fun z => 0 + std * z) <$> next_draws (np_random wa) n |})
    by (eapply lookup_weaken; [exact Hv1 | exact Hsub']).
  split.
  { intros Heqv. pose proof (fresh_lookup (heap wb)) as Hnone.
    rewrite <- Heqv, Hv1b in Hnone. discriminate Hnone. }
  split; [exact Hv1|]. simpl.
  split. { rewrite lookup_insert_ne; [exact Hv1b|].
           intros Heqv. pose proof (fresh_lookup (heap wb)) as Hnone.
           rewrite Heqv, Hv1b in Hnone. discriminate Hnone. }
  split; [apply lookup_insert_eq|].
  split; [rewrite Hms; reflexivity|]. simpl.
  fold n std. rewrite next_draws_app, fmap_app, Hrs'. subst w1. simpl.
  rewrite Hrs. reflexivity.
Qed.

(** X6.  At the temperature [0.0] every velocity is exactly [0.0]: for a
    masses array whose entries all are one value [m0 > 0], a dimension
    [dim >= 0] with a sample of at most [2^63 - 1] bytes ([8 * N * dim]), a
    finite [kb >= 0] with a clear sign bit and a generator whose next
    [N * dim] variates are finite, the call returns an array of shape
    [(N, dim)] filled with [0.0]. *)
Theorem generate_velocities_zero_temperature
    (w : world) (m : loc) (N : nat) (m0 : float) (dim : Z) (kb : option float) :
  heap w !! m = Some (array1 (replicate N m0)) ->
  (1 <= N)%nat ->
  (0 <? m0) = true ->
  (0 <= dim)%Z ->
  (8 * Z.of_nat N <= Np.npy_max_intp)%Z ->
  (8 * Z.of_nat N * dim <= Np.npy_max_intp)%Z ->
  is_finite (default 1 kb) = true ->
  (0 <=? default 1 kb) = true -> Np.signbit_set (default 1 kb) = false ->
  (forall k : nat, (k < N * Z.to_nat dim)%nat ->
     is_finite (gauss_stream (np_random w) (consumed (np_random w) + k)) = true) ->
  exists (v : loc) (w' : world),
    generate_velocities m dim 0 kb w = (Returns v, w') /\
    heap w' !! v =
      Some {| shape := [N; Z.to_nat dim];
              data := replicate (N * Z.to_nat dim) 0 |}.
Proof.
  intros Hm HN Hm0 Hdim Hsize1 Hsize Hfin Hkb Hkb' Hz.
  pose proof (unique_count_replicate N m0 HN) as Hone.
  destruct (generate_velocities_accepted w m _ dim 0 kb Hm Hone)
    as (m0' & rest & w1 & Hms & Hsub & Hrs & Heq).
  assert (m0' = m0) as ->.
  { destruct N; [lia|]. simpl in Hms. congruence. }
  rewrite Heq, length_replicate.
  destruct (sample_size_ok N dim HN Hdim Hsize1 Hsize) as [Hfits Hdims].
  destruct (sample_cases (default 1 kb * 0 / m0) N dim w1)
    as [[_ Hc]|[[_ (_ & Hc)]|[[_ (_ & _ & Hc)]
                             |[(msg & _ & _ & _ & _ & Hc)|[Hr _]]]]].
  - rewrite (std_dev_at_zero _ _ Hfin Hkb Hkb' Hm0) in Hc. discriminate Hc.
  - rewrite (std_dev_at_zero _ _ Hfin Hkb Hkb' Hm0) in Hc. discriminate Hc.
  - congruence.
  - congruence.
  - rewrite (std_dev_at_zero _ _ Hfin Hkb Hkb' Hm0) in Hr.
    eexists _, _. split; [exact Hr|]. simpl.
    rewrite lookup_insert_eq. f_equal. f_equal.
    rewrite Hrs. unfold next_draws. rewrite <- list_fmap_compose.
    transitivity (replicate (length (seq 0 (N * Z.to_nat dim))) 0%float);
      [|rewrite length_seq; reflexivity].
    apply fmap_const_on. intros i Hi. apply elem_of_seq in Hi.
    simpl. apply zero_scale_sample, Hz. lia.
Qed.

(** X7.  The dimension is not checked by the sampler itself: for masses all
    one value [m0 > 0], [T >= 0] and [kb >= 0] with a clear sign bit, a
    negative [dim] (one that fits a 64-bit index, [- 2^63 <= dim < 0]) comes
    back as the ValueError of [np.random.normal] for a negative dimension,
    and nothing has been drawn. *)
Theorem generate_velocities_negative_dimension
    (w : world) (m : loc) (N : nat) (m0 : float) (dim : Z) (T : float)
    (kb : option float) :
  heap w !! m = Some (array1 (replicate N m0)) ->
  (1 <= N)%nat ->
  (8 * Z.of_nat N <= Np.npy_max_intp)%Z ->
  (0 <? m0) = true ->
  (- 2 ^ 63 <= dim < 0)%Z ->
  (0 <=? T) = true -> Np.signbit_set T = false ->
  (0 <=? default 1 kb) = true -> Np.signbit_set (default 1 kb) = false ->
  exists w' : world,
    generate_velocities m dim T kb w =
      (Raises (ValueError "negative dimensions are not allowed"), w') /\
    np_random w' = np_random w.
Proof.
  intros Hm HN Hsize1 Hm0 Hdim HT HT' Hkb Hkb'.
  pose proof (unique_count_replicate N m0 HN) as Hone.
  destruct (generate_velocities_accepted w m _ dim T kb Hm Hone)
    as (m0' & rest & w1 & Hms & Hsub & Hrs & Heq).
  assert (m0' = m0) as ->.
  { destruct N; [lia|]. simpl in Hms. congruence. }
  exists w1. split; [|exact Hrs]. rewrite Heq, length_replicate.
  pose proof (variance_nn _ _ _ Hkb Hkb' HT HT' Hm0) as Hnn.
  destruct (math_sqrt_nn _ w1 Hnn) as [Hsqrt Hsign].
  rewrite (bind_returns _ _ _ _ _ Hsqrt), bind_ret_r, random_normal_eq, Hsign.
  destruct (check_dims_negative N dim HN Hsize1 Hdim) as [-> ->]. reflexivity.
Qed.

(** *** The further results at concrete inputs *)

Lemma generate_velocities_failure_draws_nothing_witness :
  np_random (snd (generate_velocities 1%positive 2 (-1) None
                    (world_with [1; 1] (rs_ramp 0.5)))) =
  np_random (world_with [1; 1] (rs_ramp 0.5)).
Proof.
  apply (generate_velocities_failure_draws_nothing
           (world_with [1; 1] (rs_ramp 0.5)) 1%positive 2 (-1) None
           (ValueError "math domain error")).
  reflexivity.
Defined.

Lemma generate_velocities_raises_only_witness :
  ValueError "negative dimensions are not allowed" =
    NotImplementedError different_masses_msg \/
  ValueError "negative dimensions are not allowed" = ValueError "math domain error" \/
  ValueError "negative dimensions are not allowed" = ValueError "scale < 0" \/
  ValueError "negative dimensions are not allowed" =
    ValueError "Maximum allowed dimension exceeded" \/
  ValueError "negative dimensions are not allowed" =
    ValueError "negative dimensions are not allowed" \/
  ValueError "negative dimensions are not allowed" = ValueError Np.too_big_msg.
Proof.
  apply (generate_velocities_raises_only
           (world_with [1] (rs_ramp 0.5)) 1%positive [1] (-1) 1 None
           (ValueError "negative dimensions are not allowed")).
  - reflexivity.
  - reflexivity.
Defined.

Lemma generate_velocities_unsupported_iff_witness :
  fst (generate_velocities 1%positive 2 1 None (world_with [1; 2] (rs_ramp 0.5))) =
    Raises (NotImplementedError different_masses_msg) <->
  [1; 2] = [] \/
  exists x y, x ∈ [1; 2] /\ y ∈ [1; 2] /\ Np.same_value x y = false.
Proof.
  apply (generate_velocities_unsupported_iff
           (world_with [1; 2] (rs_ramp 0.5)) 1%positive [1; 2] 2 1 None).
  reflexivity.
Defined.

Lemma generate_velocities_returns_only_witness :
  exists (m0 : float) (rest : list float),
    [4; 4; 4] = m0 :: rest /\
    (forall y, y ∈ [4; 4; 4] -> Np.same_value m0 y = true) /\
    (0 <= 2)%Z /\
    (default 1 None * 1 / m0 <? 0) = false /\
    heap (world_with [4; 4; 4] (rs_ramp 0.5)) !! 4%positive = None /\
    heap (snd (generate_velocities 1%positive 2 1 None
                 (world_with [4; 4; 4] (rs_ramp 0.5)))) !! 4%positive =
      Some {| shape := [length [4; 4; 4]; Z.to_nat 2];
              data := (fun z => 0 + sqrt (default 1 None * 1 / m0) * z) <$>
                      next_draws (np_random (world_with [4; 4; 4] (rs_ramp 0.5)))
                        (length [4; 4; 4] * Z.to_nat 2) |} /\
    np_random (snd (generate_velocities 1%positive 2 1 None
                      (world_with [4; 4; 4] (rs_ramp 0.5)))) =
      advanced (np_random (world_with [4; 4; 4] (rs_ramp 0.5)))
        (length [4; 4; 4] * Z.to_nat 2).
Proof.
  apply (generate_velocities_returns_only
           (world_with [4; 4; 4] (rs_ramp 0.5))
           (snd (generate_velocities 1%positive 2 1 None
                   (world_with [4; 4; 4] (rs_ramp 0.5))))
           1%positive 4%positive [4; 4; 4] 2 1 None).
  - reflexivity.
  - reflexivity.
Defined.

Lemma generate_velocities_twice_witness :
  exists (v2 : loc) (w2 : world) (a1 a2 : ndarray) (m0 : float),
    generate_velocities 1%positive 1 1 None
      (snd (generate_velocities 1%positive 1 1 None (world_with [1; 1] (rs_ramp 0.5)))) =
      (Returns v2, w2) /\
    4%positive <> v2 /\
    heap (snd (generate_velocities 1%positive 1 1 None
                 (world_with [1; 1] (rs_ramp 0.5)))) !! 4%positive = Some a1 /\
    heap w2 !! 4%positive = Some a1 /\
    heap w2 !! v2 = Some a2 /\
    head [1; 1] = Some m0 /\
    data a1 ++ data a2 =
      (fun z => 0 + sqrt (default 1 None * 1 / m0) * z) <$>
      next_draws (np_random (world_with [1; 1] (rs_ramp 0.5)))
        (length [1; 1] * Z.to_nat 1 + length [1; 1] * Z.to_nat 1).
Proof.
  apply (generate_velocities_twice
           (world_with [1; 1] (rs_ramp 0.5))
           (snd (generate_velocities 1%positive 1 1 None
                   (world_with [1; 1] (rs_ramp 0.5))))
           1%positive 4%positive [1; 1] 1 1 None).
  - reflexivity.
  - reflexivity.
Defined.

Lemma generate_velocities_zero_temperature_witness :
  exists (v : loc) (w' : world),
    generate_velocities 1%positive 2 0 None (world_with [4; 4] (rs_ramp 0.5)) =
      (Returns v, w') /\
    heap w' !! v =
      Some {| shape := [2%nat; Z.to_nat 2];
              data := replicate (2 * Z.to_nat 2) 0 |}.
Proof.
  apply (generate_velocities_zero_temperature
           (world_with [4; 4] (rs_ramp 0.5)) 1%positive 2 4 2 None);
    try first [reflexivity | lia | (vm_compute; discriminate)].
  intros k Hk. simpl in Hk.
  do 4 (destruct k as [|k]; [reflexivity|]). lia.
Defined.

Lemma generate_velocities_negative_dimension_witness :
  exists w' : world,
    generate_velocities 1%positive (-1) 1 None (world_with [1] (rs_ramp 0.5)) =
      (Raises (ValueError "negative dimensions are not allowed"), w') /\
    np_random w' = np_random (world_with [1] (rs_ramp 0.5)).
Proof.
  apply (generate_velocities_negative_dimension
           (world_with [1] (rs_ramp 0.5)) 1%positive 1 1 (-1) 1 None);
    first [reflexivity | lia | (vm_compute; discriminate)
           | (split; vm_compute; first [reflexivity | discriminate])].
Defined.

(** The same masses in two stores, at two positions of generators that will
    hand out the same variates. *)
Lemma generate_velocities_fixed_by_generator_state_witness :
  result_of (generate_velocities 1%positive 2 1 None (world_with [4; 4] (rs_ramp 0.5))) =
    result_of (generate_velocities 5%positive 2 1 None
                 (world_elsewhere [4; 4] (rs_ramp_shifted 0.5))) /\
  np_random (snd (generate_velocities 1%positive 2 1 None
                    (world_with [4; 4] (rs_ramp 0.5)))) =
    advanced (np_random (world_with [4; 4] (rs_ramp 0.5)))
      match fst (generate_velocities 1%positive 2 1 None
                   (world_with [4; 4] (rs_ramp 0.5))) with
      | Returns _ => length [4; 4] * Z.to_nat 2
      | Raises _ => 0
      end /\
  np_random (snd (generate_velocities 5%positive 2 1 None
                    (world_elsewhere [4; 4] (rs_ramp_shifted 0.5)))) =
    advanced (np_random (world_elsewhere [4; 4] (rs_ramp_shifted 0.5)))
      match fst (generate_velocities 5%positive 2 1 None
                   (world_elsewhere [4; 4] (rs_ramp_shifted 0.5))) with
      | Returns _ => length [4; 4] * Z.to_nat 2
      | Raises _ => 0
      end /\
  (forall k : nat,
     gauss_stream
       (np_random (snd (generate_velocities 1%positive 2 1 None
                          (world_with [4; 4] (rs_ramp 0.5)))))
       (consumed
          (np_random (snd (generate_velocities 1%positive 2 1 None
                             (world_with [4; 4] (rs_ramp 0.5))))) + k) =
     gauss_stream
       (np_random (snd (generate_velocities 5%positive 2 1 None
                          (world_elsewhere [4; 4] (rs_ramp_shifted 0.5)))))
       (consumed
          (np_random (snd (generate_velocities 5%positive 2 1 None
                             (world_elsewhere [4; 4] (rs_ramp_shifted 0.5))))) + k)).
Proof.
  apply (generate_velocities_fixed_by_generator_state
           (world_with [4; 4] (rs_ramp 0.5))
           (world_elsewhere [4; 4] (rs_ramp_shifted 0.5))
           1%positive 5%positive [4; 4] 2 1 None).
  - reflexivity.
  - reflexivity.
  - intros k. simpl. f_equal. lia.
Defined.

Local Close Scope float_scope.

(** ** The collision engine: results *)

Module EngineFacts.
Import Engine.
Local Open Scope Q_scope.

Lemma sum_squares_nonzero (x y : Q) : ~ (x == 0 /\ y == 0) -> ~ x * x + y * y == 0.
Proof.
  intros H Hs. apply H.
  assert (0 <= x * x) by nra. assert (0 <= y * y) by nra.
  split; nra.
Qed.

Lemma coincident_false (a b : Particle) :
  ~ (fst (position a) == fst (position b) /\ snd (position a) == snd (position b)) ->
  coincident a b = false.
Proof.
  intros H. unfold coincident. apply andb_false_iff.
  destruct (Qeq_bool (fst (position a)) (fst (position b))) eqn:E1; [|left; reflexivity].
  destruct (Qeq_bool (snd (position a)) (snd (position b))) eqn:E2; [|right; reflexivity].
  exfalso. apply H. split; apply Qeq_bool_iff; assumption.
Qed.

End EngineFacts.

Import Engine EngineFacts.
Local Open Scope Q_scope.

(** C5.  For a pair with distinct centers and positive masses the resolver
    returns velocities with the same total momentum, in both components, and
    the same total kinetic energy as before the collision. *)
Theorem resolve_conserves_momentum_and_energy (i j : nat) (a b : Particle) :
  ~ (fst (position a) == fst (position b) /\ snd (position a) == snd (position b)) ->
  0 < mass a -> 0 < mass b ->
  exists va vb : vec,
    resolve i j a b = Ok (va, vb) /\
    fst (vadd (momentum (mass a) va) (momentum (mass b) vb)) ==
      fst (vadd (momentum (mass a) (velocity a)) (momentum (mass b) (velocity b))) /\
    snd (vadd (momentum (mass a) va) (momentum (mass b) vb)) ==
      snd (vadd (momentum (mass a) (velocity a)) (momentum (mass b) (velocity b))) /\
    kinetic_energy (mass a) va + kinetic_energy (mass b) vb ==
      kinetic_energy (mass a) (velocity a) + kinetic_energy (mass b) (velocity b).
Proof.
  intros Hd Ha Hb. exists (bounce a b), (bounce b a).
  unfold resolve. rewrite (coincident_false a b Hd).
  split; [reflexivity|].
  destruct a as [[xa ya] [ua va] ra ma], b as [[xb yb] [ub vb] rb mb].
  simpl in *.
  assert (Hm : ~ ma + mb == 0) by lra.
  assert (Hab : ~ (xa - xb) * (xa - xb) + (ya - yb) * (ya - yb) == 0).
  { apply sum_squares_nonzero. intros [H1 H2]. apply Hd. split; lra. }
  assert (Hba : ~ (xb - xa) * (xb - xa) + (yb - ya) * (yb - ya) == 0).
  { apply sum_squares_nonzero. intros [H1 H2]. apply Hd. split; lra. }
  unfold bounce, kinetic_energy, momentum, vadd, vsub, vscale, dot. simpl.
  repeat split; field; (split; [first [exact Hab | exact Hba] | lra]).
Qed.

(** Unit masses, touching, head on at unit speed. *)
Lemma resolve_conserves_momentum_and_energy_witness :
  let a := {| position := (0, 0); velocity := (1, 0); radius := 1 # 2; mass := 1 |} in
  let b := {| position := (1, 0); velocity := (-1, 0); radius := 1 # 2; mass := 1 |} in
  exists va vb : vec,
    resolve 0 1 a b = Ok (va, vb) /\
    fst (vadd (momentum (mass a) va) (momentum (mass b) vb)) ==
      fst (vadd (momentum (mass a) (velocity a)) (momentum (mass b) (velocity b))) /\
    snd (vadd (momentum (mass a) va) (momentum (mass b) vb)) ==
      snd (vadd (momentum (mass a) (velocity a)) (momentum (mass b) (velocity b))) /\
    kinetic_energy (mass a) va + kinetic_energy (mass b) vb ==
      kinetic_energy (mass a) (velocity a) + kinetic_energy (mass b) (velocity b).
Proof.
  apply (resolve_conserves_momentum_and_energy 0 1
           {| position := (0, 0); velocity := (1, 0); radius := 1 # 2; mass := 1 |}
           {| position := (1, 0); velocity := (-1, 0); radius := 1 # 2; mass := 1 |}).
  - simpl. intros [H _]. discriminate H.
  - reflexivity.
  - reflexivity.
Defined.

(** Equal masses meeting head on exchange their velocities. *)
Example resolve_head_on_exchange :
  let a := {| position := (0, 0); velocity := (1, 0); radius := 1 # 2; mass := 1 |} in
  let b := {| position := (1, 0); velocity := (-1, 0); radius := 1 # 2; mass := 1 |} in
  Qred (fst (bounce a b)) = -1 /\ Qred (snd (bounce a b)) = 0 /\
  Qred (fst (bounce b a)) = 1 /\ Qred (snd (bounce b a)) = 0.
Proof. vm_compute. repeat split; reflexivity. Qed.

Section StepperFacts.

Variable sqrtQ : Q -> Q.
Variable find : ParticleState -> list (nat * nat).
Variable free_flight : ParticleState -> ParticleState.
Variable max_iterations : nat.

Local Abbreviation loop := (resolve_loop sqrtQ find free_flight).
Local Abbreviation reaches := (resolved sqrtQ find).

Lemma resolved_step (s s1 : ParticleState) (i j : nat) (rest : list (nat * nat)) :
  find s = (i, j) :: rest -> resolve_contact sqrtQ s i j = Ok s1 ->
  reaches 1 s s1.
Proof. intros Hf Hr. eapply resolved_S; [exact Hf | exact Hr | constructor]. Qed.

(** What the loop returns is the trajectory of the step. *)
Lemma resolve_loop_trajectory (fuel : nat) (s : ParticleState)
    (states : list ParticleState) :
  loop fuel s = Ok states ->
  exists (k : nat) (s_last : ParticleState),
    (k <= fuel)%nat /\
    length states = S k /\
    reaches k s s_last /\
    find s_last = [] /\
    states !! k = Some (free_flight s_last) /\
    forall t : nat, (t < k)%nat ->
      exists s_t, states !! t = Some s_t /\ reaches (S t) s s_t.
Proof.
  revert s states. induction fuel as [|fuel IH]; intros s states; simpl.
  - destruct (find s) as [|[i j] rest] eqn:Hf; [|discriminate].
    intros [= <-]. exists 0%nat, s.
    split; [lia|]. split; [reflexivity|]. split; [constructor|].
    split; [exact Hf|]. split; [reflexivity|]. intros t Ht. lia.
  - destruct (find s) as [|[i j] rest] eqn:Hf.
    + intros [= <-]. exists 0%nat, s.
      split; [lia|]. split; [reflexivity|]. split; [constructor|].
      split; [exact Hf|]. split; [reflexivity|]. intros t Ht. lia.
    + destruct (resolve_contact sqrtQ s i j) as [s1|e] eqn:Hr; [|discriminate].
      destruct (loop fuel s1) as [states1|e] eqn:Hl; [|discriminate].
      intros [= <-].
      destruct (IH s1 states1 Hl) as (k & s_last & Hk & Hlen & Hreach & Hnone & Hlast & Hmid).
      exists (S k), s_last. split; [lia|]. split; [simpl; lia|].
      split; [eapply resolved_S; eassumption|]. split; [exact Hnone|].
      split; [exact Hlast|].
      intros [|t] Ht.
      * exists s1. split; [reflexivity|]. eapply resolved_step; eassumption.
      * destruct (Hmid t ltac:(lia)) as (s_t & Hst & Hrt).
        exists s_t. split; [exact Hst|]. eapply resolved_S; eassumption.
Qed.

(** A failure after some resolutions is the failure of the whole loop. *)
Lemma resolve_loop_propagates (k : nat) (s s' : ParticleState) :
  reaches k s s' ->
  forall (fuel : nat) (e : engine_error),
    loop fuel s' = Err e -> loop (k + fuel) s = Err e.
Proof.
  induction 1 as [s|k s s1 s' i j rest Hf Hr _ IH]; intros fuel e He; simpl.
  - exact He.
  - rewrite Hf, Hr, (IH fuel e He). reflexivity.
Qed.

(** A failed loop stopped at a contact it could not resolve. *)
Lemma resolve_loop_failure (fuel : nat) (s : ParticleState) (e : engine_error) :
  loop fuel s = Err e ->
  exists (k : nat) (s' : ParticleState) (i j : nat) (rest : list (nat * nat)),
    (k <= fuel)%nat /\
    reaches k s s' /\
    find s' = (i, j) :: rest /\
    ((e = StalledResolution /\ k = fuel) \/ resolve_contact sqrtQ s' i j = Err e).
Proof.
  revert s. induction fuel as [|fuel IH]; intros s; simpl.
  - destruct (find s) as [|[i j] rest] eqn:Hf; [discriminate|].
    intros [= <-]. exists 0%nat, s, i, j, rest.
    split; [lia|]. split; [constructor|]. split; [exact Hf|]. left. split; reflexivity.
  - destruct (find s) as [|[i j] rest] eqn:Hf; [discriminate|].
    destruct (resolve_contact sqrtQ s i j) as [s1|e1] eqn:Hr.
    + destruct (loop fuel s1) as [states1|e1] eqn:Hl; [discriminate|].
      intros [= <-].
      destruct (IH s1 Hl) as (k & s' & i' & j' & rest' & Hk & Hreach & Hf' & Hwhy).
      exists (S k), s', i', j', rest'. split; [lia|].
      split; [eapply resolved_S; eassumption|]. split; [exact Hf'|].
      destruct Hwhy as [[-> ->]|Hwhy]; [left; split; reflexivity | right; exact Hwhy].
    + intros [= <-]. exists 0%nat, s, i, j, rest.
      split; [lia|]. split; [constructor|]. split; [exact Hf|]. right. exact Hr.
Qed.

(** C4.  For every input state, what the step returns is a sequence of at
    least one state, in chronological order: after [k] resolutions, [k + 1]
    states, of which state number [t < k] is the state after the first
    [t + 1] resolutions and the last is the final state, the free flight of
    the state in which no contact was left.  The only steps that return no
    sequence are those that fail outright, at a contact left when the cap is
    reached or at a contact the resolver rejects. *)
Theorem update_spheres_returns_trajectory_or_fails (s : ParticleState) :
  match update_spheres (advance sqrtQ find free_flight max_iterations) s with
  | Ok states =>
      exists (k : nat) (s_last : ParticleState),
        (k <= max_iterations)%nat /\
        length states = S k /\
        reaches k s s_last /\
        find s_last = [] /\
        states !! k = Some (free_flight s_last) /\
        forall t : nat, (t < k)%nat ->
          exists s_t, states !! t = Some s_t /\ reaches (S t) s s_t
  | Err e =>
      exists (k : nat) (s' : ParticleState) (i j : nat) (rest : list (nat * nat)),
        (k <= max_iterations)%nat /\
        reaches k s s' /\
        find s' = (i, j) :: rest /\
        ((e = StalledResolution /\ k = max_iterations) \/
         resolve_contact sqrtQ s' i j = Err e)
  end.
Proof.
  unfold update_spheres, advance.
  destruct (loop max_iterations s) as [states|e] eqn:H.
  - apply resolve_loop_trajectory, H.
  - apply resolve_loop_failure, H.
Qed.

(** C6.  For a pair whose centers coincide the resolver fails with
    DegenerateContact for that pair instead of dividing by the zero distance;
    and whenever the step, after any number of resolutions within the cap,
    is handed such a pair by the detector, the whole step fails with that
    condition: the caller gets the failure and none of the states resolved
    so far. *)
Theorem coincident_centers_fail_the_step (i j : nat) (a b : Particle) :
  fst (position a) == fst (position b) /\ snd (position a) == snd (position b) ->
  resolve i j a b = Err (DegenerateContact i j) /\
  forall (s s' : ParticleState) (k : nat) (rest : list (nat * nat)),
    reaches k s s' ->
    (k < max_iterations)%nat ->
    find s' = (i, j) :: rest ->
    particle s' i = Some a ->
    particle s' j = Some b ->
    update_spheres (advance sqrtQ find free_flight max_iterations) s =
      Err (DegenerateContact i j).
Proof.
  intros [Hx Hy].
  assert (Hc : coincident a b = true).
  { unfold coincident. apply andb_true_iff. split; apply Qeq_bool_iff; assumption. }
  assert (Hres : resolve i j a b = Err (DegenerateContact i j)).
  { unfold resolve. rewrite Hc. reflexivity. }
  split; [exact Hres|].
  intros s s' k rest Hreach Hk Hf Ha Hb.
  unfold update_spheres, advance.
  replace max_iterations with (k + S (max_iterations - k - 1))%nat by lia.
  apply (resolve_loop_propagates k s s' Hreach). simpl.
  rewrite Hf. unfold resolve_contact. rewrite Ha, Hb, Hres. reflexivity.
Qed.

End StepperFacts.

(** *** The engine at concrete states *)

(** Two discs meeting head on: one resolution, then the free flight. *)
Example update_spheres_head_on :
  update_spheres closing_engine head_on =
  Ok [ {| positions := [(0, 0); (1, 0)];
          velocities := [(-2 # 2, 0 # 2); (2 # 2, 0 # 2)];
          radii := [1 # 2; 1 # 2]; masses := [1; 1];
          width := 100; height := 100; boundary := Periodic |};
       {| positions := [(-2 # 2, 0 # 2); (4 # 2, 0 # 2)];
          velocities := [(-2 # 2, 0 # 2); (2 # 2, 0 # 2)];
          radii := [1 # 2; 1 # 2]; masses := [1; 1];
          width := 100; height := 100; boundary := Periodic |} ].
Proof. vm_compute. reflexivity. Qed.

(** Under the closed contact test alone a resolved pair, still touching, is
    reported again, and the step runs into the cap. *)
Example update_spheres_head_on_stalls :
  update_spheres contact_engine head_on = Err StalledResolution.
Proof. vm_compute. reflexivity. Qed.

(** A free flight of fixed length can end with two discs overlapping. *)
Example fixed_flight_can_overlap :
  exists s' : ParticleState,
    update_spheres closing_engine
      (two_discs (0, 0) (5 # 2, 0) (1, 0) (-1, 0) 1 1) = Ok [s'] /\
    find_contacts s' = [(0%nat, 1%nat)].
Proof. eexists. vm_compute. split; reflexivity. Qed.

Lemma coincident_centers_fail_the_step_witness :
  resolve 0 1
    {| position := (0, 0); velocity := (1, 0); radius := 1 # 2; mass := 1 |}
    {| position := (0, 0); velocity := (-1, 0); radius := 1 # 2; mass := 3 |} =
    Err (DegenerateContact 0 1) /\
  update_spheres contact_engine coincident_discs = Err (DegenerateContact 0 1).
Proof.
  destruct (coincident_centers_fail_the_step sqrtQ_floor find_contacts (drift 1) 8 0 1
              {| position := (0, 0); velocity := (1, 0); radius := 1 # 2; mass := 1 |}
              {| position := (0, 0); velocity := (-1, 0); radius := 1 # 2; mass := 3 |})
    as [Hresolve Hstep].
  - split; reflexivity.
  - split; [exact Hresolve|].
    apply (Hstep coincident_discs coincident_discs 0%nat []).
    + constructor.
    + lia.
    + reflexivity.
    + reflexivity.
    + reflexivity.
Defined.
